(** * Split / merge detection between two TAD maps

    A shallow embedding of [src/split_merge_detect.py] and of the
    decorators [wrapper_print] and [visualise_wrapper] of
    [src/func_condition_wrapper.py].

    Conventions of the embedding.

    - A pandas [DataFrame] is a list of rows; where the index labels are
      observable (they are in [choose_region]) a row is paired with its
      label, an integer.
    - The float64 columns ([start_tad1], [end_tad1], the sizes) are exact
      rationals.  The coordinates read from the TAD tables are integers and
      [1.5 * binsize] is a half-integer, so the additions, subtractions and
      comparisons of the program are exact on them; the flexibility factor
      1.1 is the rational 11/10, which float64 exceeds by less than 1e-16,
      too little to change a comparison of an adjusted size with a sum of
      integer sizes at genomic magnitudes.  Rounding of float64 is not
      part of the model.  Two cells are equal when they are equal as
      rationals ([Qeq_bool]), which is how pandas compares numbers.
    - A Python exception is the [Raise] case of [res]; a function that can
      raise returns [res A].
    - The contact matrices ([cooler]) and the Mann-Whitney test ([scipy])
      are outside the repository; they appear as Section variables. *)

From Stdlib Require Import List String ZArith QArith Bool Lia Arith.
From Stdlib Require Import Sorted Permutation Lqa.
Import ListNotations.

Local Open Scope string_scope.
Local Open Scope list_scope.
Local Open Scope Z_scope.
Local Open Scope Q_scope.

(** ** Exceptions and results *)

(** The exceptions the program can raise; [LibraryError] stands for
    whatever [cooler] or [scipy] raise. *)
Inductive exn : Type :=
| UnboundLocalError (var : string)
| KeyError (key : string)
| ValueError (msg : string)
| IndexError
| LibraryError (msg : string).

Inductive res (A : Type) : Type :=
| Ok (a : A)
| Raise (e : exn).

Arguments Ok {A} a.
Arguments Raise {A} e.

Definition bind {A B : Type} (m : res A) (k : A -> res B) : res B :=
  match m with
  | Ok a => k a
  | Raise e => Raise e
  end.

Notation "x <- m ;; k" := (bind m (fun x => k))
  (at level 61, m at next level, right associativity).

(** ** Tables *)

(** A row of a TAD table as [create_tads_tables] reads it: the columns
    [chrom], [start], [end]. *)
Module Tad.
Record t : Type := mk { chrom : string; start : Z; end_ : Z }.
End Tad.

(** A row with the columns [chrom], [start], [end], [size]: the search
    windows built by [modify_tads_map_by_condition] and the table returned
    by [add_size_column]. *)
Module Reg.
Record t : Type := mk { chrom : string; start : Q; end_ : Q; size : Q }.
End Reg.

(** A row of the table that [pd.merge(..., suffixes=('_tad1', '_tad2'))]
    produces in [find_split]. *)
Record Row : Type := mkRow {
  chrom : string;
  start_tad1 : Q;
  end_tad1 : Q;
  size_tad1 : Q;
  start_tad2 : Q;
  end_tad2 : Q;
  size_tad2 : Q
}.

(** A table whose index labels matter: label and row. *)
Definition Frame : Type := list (Z * Row).

Definition BINSIZE_COEF : Q := 3 # 2.

(** ** Chromosome lists *)

(** [Series.unique()]: the distinct values in order of first appearance. *)
Fixpoint unique_acc (seen : list string) (l : list string) : list string :=
  match l with
  | [] => []
  | c :: t =>
      if existsb (String.eqb c) seen then unique_acc seen t
      else c :: unique_acc (c :: seen) t
  end.

Definition unique (l : list string) : list string := unique_acc [] l.

Inductive warning : Type :=
| UserWarning (msg : string).

(** [get_chrom_list]: the list it returns and the warnings it emits. *)
Definition get_chrom_list (tad1 tad2 : list Tad.t) : list string * list warning :=
  let tad1_chrom_list := unique (map Tad.chrom tad1) in
  let tad2_chrom_list := unique (map Tad.chrom tad2) in
  let warned :=
    if negb (Nat.eqb (List.length tad1_chrom_list) (List.length tad2_chrom_list))
    then [UserWarning "Different numbers of chromosomes were detected!"]
    else [] in
  (filter (fun chrom => existsb (String.eqb chrom) tad2_chrom_list) tad1_chrom_list,
   warned).

(** [get_chroms_coords]: the rows of each table on chromosome [chrom]. *)
Definition get_chroms_coords (tad1 tad2 : list Tad.t) (chrom : string)
  : list Tad.t * list Tad.t :=
  (filter (fun t => String.eqb (Tad.chrom t) chrom) tad1,
   filter (fun t => String.eqb (Tad.chrom t) chrom) tad2).

(** ** Normalisation and de-normalisation of the coordinates *)

Definition modify_tad (binsize : Z) (length_flexibility : Q) (t : Tad.t) : Reg.t :=
  {| Reg.chrom := Tad.chrom t;
     Reg.start := inject_Z (Tad.start t) - BINSIZE_COEF * inject_Z binsize;
     Reg.end_ := inject_Z (Tad.end_ t) + BINSIZE_COEF * inject_Z binsize;
     Reg.size := inject_Z (Tad.end_ t - Tad.start t) * length_flexibility |}.

Definition modify_tads_map_by_condition (tad1_chr_coords : list Tad.t)
    (binsize : Z) (length_flexibility : Q) : list Reg.t :=
  map (modify_tad binsize length_flexibility) tad1_chr_coords.

Definition add_size (t : Tad.t) : Reg.t :=
  {| Reg.chrom := Tad.chrom t;
     Reg.start := inject_Z (Tad.start t);
     Reg.end_ := inject_Z (Tad.end_ t);
     Reg.size := inject_Z (Tad.end_ t - Tad.start t) |}.

Definition add_size_column (tad2_chr_coords : list Tad.t) : list Reg.t :=
  map add_size tad2_chr_coords.

(** The three assignments of [demodify_tads_map], on one row; the third
    reads the columns the first two have just written. *)
Definition demodify_row (binsize : Z) (r : Row) : Row :=
  let start' := start_tad1 r + BINSIZE_COEF * inject_Z binsize in
  let end' := end_tad1 r - BINSIZE_COEF * inject_Z binsize in
  {| chrom := chrom r;
     start_tad1 := start';
     end_tad1 := end';
     size_tad1 := end' - start';
     start_tad2 := start_tad2 r;
     end_tad2 := end_tad2 r;
     size_tad2 := size_tad2 r |}.

(** ** The interval matcher: [find_split] *)

(** One row of the merge of a window with a small TAD. *)
Definition merge_row (a b : Reg.t) : Row :=
  {| chrom := Reg.chrom a;
     start_tad1 := Reg.start a;
     end_tad1 := Reg.end_ a;
     size_tad1 := Reg.size a;
     start_tad2 := Reg.start b;
     end_tad2 := Reg.end_ b;
     size_tad2 := Reg.size b |}.

(** [pd.merge(left, right, on='chrom', how='outer')] for tables of one
    chromosome, which is how [main_split_merge_detection] calls
    [find_split]: every left row with every right row of its chromosome,
    left row first.  A row of a chromosome absent from the other table
    would get NaN in the other table's columns and is removed by the
    comparisons that follow; it is not materialised here. *)
Definition merge_on_chrom (left right : list Reg.t) : list Row :=
  flat_map
    (fun a => map (merge_row a)
                  (filter (fun b => String.eqb (Reg.chrom a) (Reg.chrom b)) right))
    left.

(** The fresh [RangeIndex] 0, 1, 2, ... of a new table. *)
Definition range_index (rows : list Row) : Frame :=
  combine (map Z.of_nat (seq 0 (List.length rows))) rows.

(** The boolean mask of the [.loc[...]] selection. *)
Definition contained (r : Row) : bool :=
  Qle_bool (start_tad1 r) (start_tad2 r)
  && Qle_bool (end_tad2 r) (end_tad1 r)
  && Qle_bool (size_tad2 r) (size_tad1 r).

(** [duplicated(subset='start_tad1', keep=False)]: the value of
    [start_tad1] occurs on at least two rows of the table. *)
Definition count_start_tad1 (df : Frame) (s : Q) : nat :=
  List.length (filter (fun y => Qeq_bool (start_tad1 (snd y)) s) df).

Definition duplicated_start_tad1 (df : Frame) (x : Z * Row) : bool :=
  Nat.leb 2 (count_start_tad1 df (start_tad1 (snd x))).

(** The key of [groupby(['chrom', 'start_tad1', 'end_tad1', 'size_tad1'])]. *)
Definition same_window (a b : Row) : bool :=
  String.eqb (chrom a) (chrom b)
  && Qeq_bool (start_tad1 a) (start_tad1 b)
  && Qeq_bool (end_tad1 a) (end_tad1 b)
  && Qeq_bool (size_tad1 a) (size_tad1 b).

Fixpoint group_heads (seen : list Row) (rows : list Row) : list Row :=
  match rows with
  | [] => []
  | r :: t =>
      if existsb (same_window r) seen then group_heads seen t
      else r :: group_heads (r :: seen) t
  end.

Definition Qmin' (a b : Q) : Q := if Qle_bool a b then a else b.
Definition Qmax' (a b : Q) : Q := if Qle_bool a b then b else a.

(** [agg({'start_tad2': 'min', 'end_tad2': 'max', 'size_tad2': 'sum'})]
    of the group of [head], followed by [reset_index()]. *)
Definition aggregate (rows : list Row) (head : Row) : Row :=
  let members := filter (same_window head) rows in
  {| chrom := chrom head;
     start_tad1 := start_tad1 head;
     end_tad1 := end_tad1 head;
     size_tad1 := size_tad1 head;
     start_tad2 := fold_left Qmin' (map start_tad2 members) (start_tad2 head);
     end_tad2 := fold_left Qmax' (map end_tad2 members) (end_tad2 head);
     size_tad2 := fold_left Qplus (map size_tad2 members) 0 |}.

(** The grouped table; pandas sorts the groups by key, here they are in
    order of first appearance: only membership in the result is used. *)
Definition groupby_agg (df : Frame) : list Row :=
  let rows := map snd df in
  map (aggregate rows) (group_heads [] rows).

Definition find_split (tad1_chr_coords tad2_chr_coords : list Tad.t)
    (binsize : Z) (length_flexibility : Q) : Frame :=
  let tad1_search_regs :=
    modify_tads_map_by_condition tad1_chr_coords binsize length_flexibility in
  let tad2_comp_regs := add_size_column tad2_chr_coords in
  let tads_region_intersect :=
    range_index (merge_on_chrom tad1_search_regs tad2_comp_regs) in
  let tads_region_intersect :=
    filter (fun x => contained (snd x)) tads_region_intersect in
  let tads_region_intersect :=
    filter (duplicated_start_tad1 tads_region_intersect) tads_region_intersect in
  let tads_region_intersect_size := groupby_agg tads_region_intersect in
  let tads_region_intersect_size :=
    filter (fun g => Qle_bool (size_tad2 g) (size_tad1 g)) tads_region_intersect_size in
  filter
    (fun x => existsb (fun g => Qeq_bool (start_tad1 (snd x)) (start_tad1 g))
                      tads_region_intersect_size)
    tads_region_intersect.

(** The defaults of [find_split], which [main_split_merge_detection] uses. *)
Definition default_binsize : Z := 100000%Z.
Definition default_length_flexibility : Q := 11 # 10.

(** ** The bin lookup: [find_coords] *)

(** The loop returns the index at the first hit; when it ends without one
    the function falls off its end and Python returns [None]. *)
Fixpoint find_coords_from (i : nat) (position : Q) (coords : list (Q * Q))
  : option nat :=
  match coords with
  | [] => None
  | (first, second) :: rest =>
      if Qle_bool first position && Qle_bool position second then Some i
      else find_coords_from (S i) position rest
  end.

Definition find_coords (position : Q) (coords : list (Q * Q)) : res (option nat) :=
  Ok (find_coords_from 0 position coords).

(** ** The significance test: [calculate_pvalue] *)

Section Scoring.

(** The type of a p-value and of an intensity sample. *)
Variable pval : Type.
Variable sample : Type.

(** [scipy.stats.mannwhitneyu(x, y, method='asymptotic')], reduced to the
    p-value it returns or the exception it raises. *)
Variable mannwhitneyu : sample -> sample -> res pval.

Definition calculate_pvalue (square_intensity hill_intensity : sample) : res pval :=
  mannwhitneyu square_intensity hill_intensity.

End Scoring.

(** ** Region of a candidate group: [find_region] *)

(** Python's [max] and [min] of a list; both raise on an empty list. *)
Definition py_max (l : list Q) : res Q :=
  match l with
  | [] => Raise (ValueError "max() arg is an empty sequence")
  | x :: t => Ok (fold_left Qmax' t x)
  end.

Definition py_min (l : list Q) : res Q :=
  match l with
  | [] => Raise (ValueError "min() arg is an empty sequence")
  | x :: t => Ok (fold_left Qmin' t x)
  end.

Definition find_region (main_tad_coords : string * Q * Q)
    (small_tads_coords : list (Q * Q)) : res (string * Q * Q) :=
  let '(chrom, main_start, main_end) := main_tad_coords in
  small_start <- py_max (map (fun pair => Qmax' (fst pair) (snd pair)) small_tads_coords) ;;
  small_end <- py_min (map (fun pair => Qmin' (fst pair) (snd pair)) small_tads_coords) ;;
  Ok (chrom, Qmin' main_start small_start, Qmax' main_end small_end).

(** ** Scoring the candidate table: [choose_region] *)

Section Pipeline.

Variable pval : Type.

(** What [create_diff_matrix] does once the region is known: fetch the
    two contact matrices and the bins of the region from the coolers,
    build the difference matrix and run [calculate_intensity] on it.
    The coolers are the same for every call of one run. *)
Variable intensity_of_region : string * Q * Q -> list (Q * Q) -> res pval.

Definition create_diff_matrix (main_tad_coords : string * Q * Q)
    (small_tads_coords : list (Q * Q)) : res pval :=
  region <- find_region main_tad_coords small_tads_coords ;;
  intensity_of_region region small_tads_coords.

(** A row of the annotated table: label, the seven columns and the
    [pvalue] cell, [None] for NaN. *)
Record ARow : Type := mkARow { label : Z; row : Row; pvalue : option pval }.

(** [row[['chrom', 'start_tad1', 'end_tad1']].to_list()] *)
Definition main_coords (r : Row) : string * Q * Q :=
  (chrom r, start_tad1 r, end_tad1 r).

(** [==] on two such lists. *)
Definition coords_eqb (a b : string * Q * Q) : bool :=
  let '(c1, s1, e1) := a in
  let '(c2, s2, e2) := b in
  String.eqb c1 c2 && Qeq_bool s1 s2 && Qeq_bool e1 e2.

Definition set_pvalue (p : pval) (x : ARow) : ARow :=
  {| label := label x; row := row x; pvalue := Some p |}.

(** [df.loc[first:last, 'pvalue'] = p] on an index without repeated
    labels: the cells from the row labelled [first] to the row labelled
    [last], both included.  [choose_region] only passes labels of the
    table, [first] not after [last]. *)
Fixpoint loc_fill (last : Z) (p : pval) (df : list ARow) : list ARow :=
  match df with
  | [] => []
  | x :: t => set_pvalue p x :: (if Z.eqb (label x) last then t else loc_fill last p t)
  end.

Fixpoint loc_assign (first last : Z) (p : pval) (df : list ARow) : list ARow :=
  match df with
  | [] => []
  | x :: t =>
      if Z.eqb (label x) first then loc_fill last p df
      else x :: loc_assign first last p t
  end.

(** The local variables of [choose_region].  [main_tad_coords] is [None]
    while the variable is unbound.  [calls] is not a variable of the
    program: it logs the arguments of every call of [create_diff_matrix],
    so that one can say how often a group is scored. *)
Record locals : Type := mkLocals {
  main_tad_coords : option (string * Q * Q);
  small_tads_coords : list (Q * Q);
  big_tad_indicies : list Z;
  df_with_value : list ARow;
  calls : list ((string * Q * Q) * list (Q * Q))
}.

(** The four statements that score the open group and broadcast its
    p-value; they occur twice in the loop. *)
Definition score_and_broadcast (st : locals) : res locals :=
  match main_tad_coords st with
  | None => Raise (UnboundLocalError "main_tad_coords")
  | Some m =>
      p <- create_diff_matrix m (small_tads_coords st) ;;
      match big_tad_indicies st with
      | [] => Raise IndexError
      | first :: _ =>
          let last := List.last (big_tad_indicies st) first in
          Ok {| main_tad_coords := main_tad_coords st;
                small_tads_coords := small_tads_coords st;
                big_tad_indicies := big_tad_indicies st;
                df_with_value := loc_assign first last p (df_with_value st);
                calls := calls st ++ [(m, small_tads_coords st)] |}
      end
  end.

(** One iteration of [for index, row in df.iterrows()]. *)
Definition loop_body (last_label : Z) (st : locals) (x : Z * Row) : res locals :=
  let index := fst x in
  let row := snd x in
  let st :=
    if Z.eqb index 0
    then {| main_tad_coords := Some (main_coords row);
            small_tads_coords := small_tads_coords st;
            big_tad_indicies := big_tad_indicies st;
            df_with_value := df_with_value st;
            calls := calls st |}
    else st in
  match main_tad_coords st with
  | None => Raise (UnboundLocalError "main_tad_coords")
  | Some m =>
      st <- (if negb (coords_eqb m (main_coords row))
             then
               st' <- score_and_broadcast st ;;
               Ok {| main_tad_coords := Some (main_coords row);
                     small_tads_coords := [];
                     big_tad_indicies := [];
                     df_with_value := df_with_value st';
                     calls := calls st' |}
             else Ok st) ;;
      let st :=
        {| main_tad_coords := main_tad_coords st;
           small_tads_coords := small_tads_coords st ++ [(start_tad2 row, end_tad2 row)];
           big_tad_indicies := big_tad_indicies st ++ [index];
           df_with_value := df_with_value st;
           calls := calls st |} in
      if Z.eqb index last_label then score_and_broadcast st else Ok st
  end.

Fixpoint iterrows (last_label : Z) (rows : Frame) (st : locals) : res locals :=
  match rows with
  | [] => Ok st
  | x :: rest =>
      st' <- loop_body last_label st x ;;
      iterrows last_label rest st'
  end.

(** The state before the loop; [df.index[-1]] is only read inside the
    loop, where the table has a last row. *)
Definition choose_region_run (df : Frame) : res locals :=
  iterrows (List.last (map fst df) 0%Z) df
    {| main_tad_coords := None;
       small_tads_coords := [];
       big_tad_indicies := [];
       df_with_value := map (fun x => mkARow (fst x) (snd x) None) df;
       calls := [] |}.

Definition choose_region (df : Frame) : res (list ARow) :=
  st <- choose_region_run df ;;
  Ok (df_with_value st).

(** ** Output: [save_frame] *)

(** [demodify_tads_map] on the annotated table, the only table it is
    called on; the label and the [pvalue] cell of a row are untouched. *)
Definition demodify_tads_map (tads_region_intersect : list ARow) (binsize : Z)
  : list ARow :=
  map (fun x => {| label := label x;
                   row := demodify_row binsize (row x);
                   pvalue := pvalue x |})
      tads_region_intersect.

(** A row of the written file, after [rename] and [drop]. *)
Record OutRow : Type := mkOutRow {
  out_label : Z;
  out_chrom : string;
  start_1 : Q;
  end_1 : Q;
  start_2 : Q;
  end_2 : Q;
  out_pvalue : option pval
}.

Definition rename_and_drop (option : string) (x : ARow) : OutRow :=
  if String.eqb option "merge"
  then {| out_label := label x; out_chrom := chrom (row x);
          start_1 := start_tad2 (row x); end_1 := end_tad2 (row x);
          start_2 := start_tad1 (row x); end_2 := end_tad1 (row x);
          out_pvalue := pvalue x |}
  else {| out_label := label x; out_chrom := chrom (row x);
          start_1 := start_tad1 (row x); end_1 := end_tad1 (row x);
          start_2 := start_tad2 (row x); end_2 := end_tad2 (row x);
          out_pvalue := pvalue x |}.

(** [save_frame] returns nothing; its two effects are the table of the
    caller, which [demodify_tads_map] changes in place, and the file it
    writes: name and content. *)
Definition save_frame (option : string) (saving_dataframe : list ARow) (binsize : Z)
  : list ARow * (string * list OutRow) :=
  let saving_dataframe := demodify_tads_map saving_dataframe binsize in
  (saving_dataframe,
   ((option ++ "_coords.csv")%string, map (rename_and_drop option) saving_dataframe)).

(** ** The pipeline: [main_split_merge_detection] *)

(** [pd.concat([a, b], ignore_index=True)] *)
Definition concat_ignore_index (a b : Frame) : Frame :=
  range_index (map snd a ++ map snd b).

(** [DataFrame.empty] of the accumulated table; [None] is the table
    without columns that [pd.DataFrame()] creates. *)
Definition empty (t : option Frame) : bool :=
  match t with
  | None => true
  | Some [] => true
  | Some (_ :: _) => false
  end.

Definition accumulate (tad1 tad2 : list Tad.t) (tad_split_table : option Frame)
    (chrom : string) : option Frame :=
  let '(tad1_chr_coords, tad2_chr_coords) := get_chroms_coords tad1 tad2 chrom in
  let found :=
    find_split tad1_chr_coords tad2_chr_coords default_binsize default_length_flexibility in
  if empty tad_split_table then Some found
  else
    match tad_split_table with
    | Some t => Some (concat_ignore_index t found)
    | None => Some found
    end.

(** [drop_duplicates()] of a two-column table, first occurrences kept. *)
Definition pair_eqb (a b : Q * Q) : bool :=
  Qeq_bool (fst a) (fst b) && Qeq_bool (snd a) (snd b).

Fixpoint drop_duplicates_acc (seen : list (Q * Q)) (l : list (Q * Q)) : list (Q * Q) :=
  match l with
  | [] => []
  | x :: t =>
      if existsb (pair_eqb x) seen then drop_duplicates_acc seen t
      else x :: drop_duplicates_acc (x :: seen) t
  end.

Definition drop_duplicates (l : list (Q * Q)) : list (Q * Q) :=
  drop_duplicates_acc [] l.

(** [final_table[['start_tad1', 'end_tad1']].drop_duplicates().shape[0]] *)
Definition count_events (final_table : list ARow) : nat :=
  List.length
    (drop_duplicates
       (map (fun x => (start_tad1 (row x), end_tad1 (row x))) final_table)).

(** One turn of [for option in ['split', 'merge']]: the final table as it
    is when the events are counted, and the file written.  With no
    common chromosome the table still has no columns when [save_frame]
    reads [start_tad1] from it. *)
Definition detect (option : string) (tad1 tad2 : list Tad.t) (binsize : Z)
  : res (list ARow * (string * list OutRow)) :=
  let '(tad1, tad2) := if String.eqb option "merge" then (tad2, tad1) else (tad1, tad2) in
  let tad_chrom_list := fst (get_chrom_list tad1 tad2) in
  let tad_split_table := fold_left (accumulate tad1 tad2) tad_chrom_list None in
  match tad_split_table with
  | None => Raise (KeyError "start_tad1")
  | Some t =>
      final_table <- choose_region t ;;
      Ok (save_frame option final_table binsize)
  end.

(** The arguments that reach the computation: the two TAD tables read by
    [create_tads_tables] and [binsize]. *)
Record arguments : Type := mkArguments {
  tads_1 : list Tad.t;
  tads_2 : list Tad.t;
  binsize_arg : Z
}.

(** The function as written, without its decorator. *)
Definition main_split_merge_detection_body (args : arguments) : res (nat * nat) :=
  s <- detect "split" (tads_1 args) (tads_2 args) (binsize_arg args) ;;
  m <- detect "merge" (tads_1 args) (tads_2 args) (binsize_arg args) ;;
  Ok (count_events (fst s), count_events (fst m)).

End Pipeline.

Arguments create_diff_matrix {pval} intensity_of_region main_tad_coords small_tads_coords.
Arguments mkARow {pval} label row pvalue.
Arguments label {pval} a.
Arguments row {pval} a.
Arguments pvalue {pval} a.
Arguments set_pvalue {pval} p x.
Arguments loc_fill {pval} last p df.
Arguments loc_assign {pval} first last p df.
Arguments mkLocals {pval}.
Arguments main_tad_coords {pval} l.
Arguments small_tads_coords {pval} l.
Arguments big_tad_indicies {pval} l.
Arguments df_with_value {pval} l.
Arguments calls {pval} l.
Arguments score_and_broadcast {pval} intensity_of_region st.
Arguments loop_body {pval} intensity_of_region last_label st x.
Arguments iterrows {pval} intensity_of_region last_label rows st.
Arguments choose_region_run {pval} intensity_of_region df.
Arguments choose_region {pval} intensity_of_region df.
Arguments demodify_tads_map {pval} tads_region_intersect binsize.
Arguments mkOutRow {pval}.
Arguments out_label {pval} o.
Arguments out_chrom {pval} o.
Arguments start_1 {pval} o.
Arguments end_1 {pval} o.
Arguments start_2 {pval} o.
Arguments end_2 {pval} o.
Arguments out_pvalue {pval} o.
Arguments rename_and_drop {pval} option x.
Arguments save_frame {pval} option saving_dataframe binsize.
Arguments count_events {pval} final_table.
Arguments detect {pval} intensity_of_region option tad1 tad2 binsize.
Arguments main_split_merge_detection_body {pval} intensity_of_region args.

(** ** The decorator: [wrapper_print] *)

(** What a decorated call leaves on the console after the progress
    message: the result on standard output, or the traceback on standard
    error. *)
Inductive console (B : Type) : Type :=
| Stdout_result (result : B)
| Stderr_traceback (e : exn).

Arguments Stdout_result {B} result.
Arguments Stderr_traceback {B} e.

(** [wrapper] has no [return] statement: the value of a decorated call is
    Python's [None], here the [None] of [option B]. *)
Definition wrapper_print {A B : Type} (func : A -> res B) (args : A)
  : option B * console B :=
  match func args with
  | Ok result => (None, Stdout_result result)
  | Raise e => (None, Stderr_traceback e)
  end.

(** The name [main_split_merge_detection] as the module exports it. *)
Definition main_split_merge_detection {pval : Type}
    (intensity_of_region : string * Q * Q -> list (Q * Q) -> res pval)
    (args : arguments) : option (nat * nat) * console (nat * nat) :=
  wrapper_print (main_split_merge_detection_body intensity_of_region) args.

(** * Vocabulary of the statements *)

(** A row and its image: start moved down and end moved up by
    [1.5 * binsize]. *)
Definition widened (binsize : Z) (r r' : Row) : Prop :=
  start_tad1 r' == start_tad1 r - BINSIZE_COEF * inject_Z binsize
  /\ end_tad1 r' == end_tad1 r + BINSIZE_COEF * inject_Z binsize.

(** Start moved up and end moved down, size recomputed. *)
Definition narrowed (binsize : Z) (r r' : Row) : Prop :=
  start_tad1 r' == start_tad1 r + BINSIZE_COEF * inject_Z binsize
  /\ end_tad1 r' == end_tad1 r - BINSIZE_COEF * inject_Z binsize
  /\ size_tad1 r' == end_tad1 r' - start_tad1 r'.

(** A position lies in a closed interval. *)
Definition inside (position : Q) (interval : Q * Q) : Prop :=
  fst interval <= position /\ position <= snd interval.

(** [reps] lists every element of [l] once. *)
Definition enumerates {A : Type} (reps l : list A) : Prop :=
  NoDup reps /\ forall a, In a reps <-> In a l.

(** [l] has [n] distinct elements. *)
Definition distinct_count {A : Type} (l : list A) (n : nat) : Prop :=
  exists reps, enumerates reps l /\ List.length reps = n.

(** Two rows belong to the same main-TAD group: same [chrom],
    [start_tad1] and [end_tad1], compared as [choose_region] does. *)
Definition same_group (a b : Row) : bool :=
  coords_eqb (main_coords a) (main_coords b).

(** The rows left once the rows of the group of [x] at the front are
    dropped. *)
Fixpoint drop_group (x : Row) (t : Frame) : Frame :=
  match t with
  | [] => []
  | y :: t' => if same_group x (snd y) then drop_group x t' else t
  end.

(** The rows of every group are consecutive: once a row of another group
    has followed a row [x], no row of the group of [x] occurs any more. *)
Fixpoint contiguous (df : Frame) : bool :=
  match df with
  | [] => true
  | x :: t =>
      forallb (fun y => negb (same_group (snd x) (snd y))) (drop_group (snd x) t)
      && contiguous t
  end.

(** [[start_tad2, end_tad2]] of a row, and the list of them over the rows
    of the group of [r], in table order. *)
Definition small_coords (r : Row) : Q * Q := (start_tad2 r, end_tad2 r).

Definition group_smalls (df : Frame) (r : Row) : list (Q * Q) :=
  map (fun y => small_coords (snd y)) (filter (fun y => same_group r (snd y)) df).

Section Runs.

Variable pval : Type.
Variable intensity_of_region : string * Q * Q -> list (Q * Q) -> res pval.

(** The table before scoring, and a stretch of rows given the p-value [p]. *)
Definition unscored (df : Frame) : list (ARow pval) :=
  map (fun x => mkARow (fst x) (snd x) None) df.

Definition scored (p : pval) (df : Frame) : list (ARow pval) :=
  map (fun x => mkARow (fst x) (snd x) (Some p)) df.

(** [Runs df out cs]: [df] is cut into its maximal runs of consecutive
    rows of one group; [out] is [df] with every run given the p-value
    computed from the run, and [cs] lists the computations, one per
    run. *)
Inductive Runs : Frame -> list (ARow pval) -> list ((string * Q * Q) * list (Q * Q)) -> Prop :=
| Runs_nil : Runs [] [] []
| Runs_cons (hd : Z * Row) (tl rest : Frame) (p : pval) out cs :
    Forall (fun y => same_group (snd hd) (snd y) = true) tl ->
    match rest with
    | [] => True
    | y :: _ => same_group (snd hd) (snd y) = false
    end ->
    create_diff_matrix intensity_of_region (main_coords (snd hd))
      (map (fun y => small_coords (snd y)) (hd :: tl)) = Ok p ->
    Runs rest out cs ->
    Runs ((hd :: tl) ++ rest) (scored p (hd :: tl) ++ out)
         ((main_coords (snd hd), map (fun y => small_coords (snd y)) (hd :: tl)) :: cs).

(** The state of the loop when the rows of [pre] are scored, the rows
    [c0 :: ctl] are the open group and [rest] is still to be read. *)
Definition open_group (st : locals pval) (pre : list (ARow pval))
    (c0 : Z * Row) (ctl rest : Frame) : Prop :=
  main_tad_coords st = Some (main_coords (snd c0))
  /\ small_tads_coords st = map (fun y => small_coords (snd y)) (c0 :: ctl)
  /\ big_tad_indicies st = map fst (c0 :: ctl)
  /\ df_with_value st = pre ++ unscored (c0 :: ctl) ++ unscored rest
  /\ Forall (fun y => same_group (snd c0) (snd y) = true) ctl.

(** A group is open: the three variables of the group are set. *)
Definition group_open (st : locals pval) : Prop :=
  main_tad_coords st <> None
  /\ small_tads_coords st <> []
  /\ big_tad_indicies st <> [].

End Runs.

Arguments unscored {pval} df.
Arguments scored {pval} p df.
Arguments Runs {pval} intensity_of_region _ _ _.
Arguments open_group {pval} st pre c0 ctl rest.
Arguments group_open {pval} st.

(** A pair of numbers with both fractions reduced, so that equal pairs are
    equal terms; the (start_tad1, end_tad1) pair of a row in that form. *)
Definition canon (a : Q * Q) : Q * Q := (Qred (fst a), Qred (snd a)).

Definition group_key {pval : Type} (x : ARow pval) : Q * Q :=
  canon (start_tad1 (row x), end_tad1 (row x)).

(** Splitting of conjunctions that leaves defined predicates folded. *)
(** The main-TAD columns of row [r] are the columns of the window [w]. *)
Definition window_of (w : Reg.t) (r : Row) : Prop :=
  chrom r = Reg.chrom w
  /\ start_tad1 r == Reg.start w
  /\ end_tad1 r == Reg.end_ w
  /\ size_tad1 r == Reg.size w.

(** The main-TAD columns of row [r] are the TAD [t] as it was read, with
    its length as size. *)
Definition restored (t : Tad.t) (r : Row) : Prop :=
  chrom r = Tad.chrom t
  /\ start_tad1 r == inject_Z (Tad.start t)
  /\ end_tad1 r == inject_Z (Tad.end_ t)
  /\ size_tad1 r == inject_Z (Tad.end_ t) - inject_Z (Tad.start t).

(** Two rows differ at most in their main-TAD columns. *)
Definition same_rest {pval : Type} (x y : ARow pval) : Prop :=
  label y = label x
  /\ pvalue y = pvalue x
  /\ start_tad2 (row y) = start_tad2 (row x)
  /\ end_tad2 (row y) = end_tad2 (row x)
  /\ size_tad2 (row y) = size_tad2 (row x).

Ltac splits := repeat match goal with |- _ /\ _ => split end.

(** * The rest of the two modules *)

(** ** The stages of [find_split] *)

(** The successive values of [tads_region_intersect] and the value of
    [tads_region_intersect_size] in [find_split]: the merged table, the
    table after the pairwise selection, the table after
    [duplicated(...)], the groups that pass the aggregate test; and the
    mask of the last selection, [isin] on [start_tad1]. *)
Definition merged (tad1 tad2 : list Tad.t) (binsize : Z) (flex : Q) : Frame :=
  range_index (merge_on_chrom (modify_tads_map_by_condition tad1 binsize flex)
                              (add_size_column tad2)).

Definition pairwise (tad1 tad2 : list Tad.t) (binsize : Z) (flex : Q) : Frame :=
  filter (fun x => contained (snd x)) (merged tad1 tad2 binsize flex).

Definition duplicates (tad1 tad2 : list Tad.t) (binsize : Z) (flex : Q) : Frame :=
  filter (duplicated_start_tad1 (pairwise tad1 tad2 binsize flex))
         (pairwise tad1 tad2 binsize flex).

Definition passing (tad1 tad2 : list Tad.t) (binsize : Z) (flex : Q) : list Row :=
  filter (fun g => Qle_bool (size_tad2 g) (size_tad1 g))
         (groupby_agg (duplicates tad1 tad2 binsize flex)).

Definition isin_start_tad1 (groups : list Row) (r : Row) : bool :=
  existsb (fun g => Qeq_bool (start_tad1 r) (start_tad1 g)) groups.

(** [contiguous] on the rows alone. *)
Fixpoint drop_group_rows (x : Row) (t : list Row) : list Row :=
  match t with
  | [] => []
  | y :: t' => if same_group x y then drop_group_rows x t' else t
  end.

Fixpoint contiguous_rows (rows : list Row) : bool :=
  match rows with
  | [] => true
  | x :: t =>
      forallb (fun y => negb (same_group x y)) (drop_group_rows x t)
      && contiguous_rows t
  end.

(** What [demodify_tads_map] does to a (start_tad1, end_tad1) pair, [c]
    being [1.5 * binsize]. *)
Definition shift_pair (c : Q) (a : Q * Q) : Q * Q := (fst a + c, snd a - c).

(** Each bin begins where the previous one ends, as the bins of a cooler
    do. *)
Fixpoint chained (coords : list (Q * Q)) : Prop :=
  match coords with
  | [] => True
  | bin :: rest =>
      match rest with
      | [] => True
      | next :: _ => snd bin == fst next /\ chained rest
      end
  end.

(** ** The decorators of [func_condition_wrapper.py], with their output *)

(** The characters written [\r] and [\n] in the source. *)
Definition CR : string := String (Ascii.ascii_of_nat 13) EmptyString.
Definition LF : string := String (Ascii.ascii_of_nat 10) EmptyString.

Definition FUNC_NAMES : list (string * (string * string)) :=
  [("count_tads_change_intensity",
    ("Searching changes in the intensity of TADs...",
     "The number of TADs with a changed intensity: "));
   ("main_split_merge_detection",
    ("Searching splits and merges in TADs...",
     "The number of splits|merges: "))].

(** [d[key]] on a dictionary. *)
Fixpoint getitem {V : Type} (d : list (string * V)) (key : string) : res V :=
  match d with
  | [] => Raise (KeyError key)
  | (k, v) :: d' => if String.eqb key k then Ok v else getitem d' key
  end.

(** What has been written to the two streams, oldest first. *)
Record streams : Type := mkStreams { stderr : list string; stdout : list string }.

Section Wrapper.

Variables A B : Type.

(** The rendering of a result in an f-string, and
    [traceback.format_exc()]. *)
Variable format : B -> string.
Variable format_exc : exn -> string.

(** [wrapper], the function that [wrapper_print] returns, for a decorated
    function whose [__name__] is [func_name]: the value of the call, [tt]
    for [None], and what it writes.  The first message is looked up and
    written before the [try]. *)
Definition wrapper (func_name : string) (func : A -> res B) (args : A)
  : res unit * streams :=
  match getitem FUNC_NAMES func_name with
  | Raise e => (Raise e, mkStreams [] [])
  | Ok messages =>
      let searching := (fst messages ++ CR)%string in
      match func args with
      | Ok result =>
          (Ok tt,
           mkStreams
             [searching; ("Completed successfully!                       " ++ CR)%string]
             [(snd messages ++ format result ++ LF)%string])
      | Raise e => (Ok tt, mkStreams [searching; format_exc e] [])
      end
  end.

(** [wrapper_first], the function that [visualise_wrapper] returns.
    [used] is the attribute [wrapper_first.used] before the call; the
    result is the attribute after it, what the call writes to standard
    error and how the call ends. *)
Definition wrapper_first (func : A -> res B) (used : bool) (args : A)
  : bool * list string * res unit :=
  (true,
   (if used then [] else [("Visualising..." ++ CR)%string]),
   match func args with
   | Ok _ => Ok tt
   | Raise e => Raise e
   end).

(** Successive calls of one decorated function, the caller going on after
    a call that raised: the attribute at the end and all that was
    written. *)
Fixpoint wrapper_first_calls (func : A -> res B) (used : bool) (calls : list A)
  : bool * list string :=
  match calls with
  | [] => (used, [])
  | args :: rest =>
      let '(used', written, _) := wrapper_first func used args in
      let '(used'', written') := wrapper_first_calls func used' rest in
      (used'', written ++ written')
  end.

End Wrapper.

Arguments wrapper {A B} format format_exc func_name func args.
Arguments wrapper_first {A B} func used args.
Arguments wrapper_first_calls {A B} func used calls.

(** ** Intensities of a group: [calculate_intensity] *)

(** [calculate_intensity] can end in one more exception than the functions
    above, the [TypeError] of [None + 1]. *)
Inductive raised : Type :=
| Exn (e : exn)
| TypeError (msg : string).

Inductive outcome (A : Type) : Type :=
| Returned (a : A)
| Raised (r : raised).

Arguments Returned {A} a.
Arguments Raised {A} r.

Definition obind {A B : Type} (m : outcome A) (k : A -> outcome B) : outcome B :=
  match m with
  | Returned a => k a
  | Raised r => Raised r
  end.

Notation "x <-- m ;; k" := (obind m (fun x => k))
  (at level 61, m at next level, right associativity).

Definition of_res {A : Type} (m : res A) : outcome A :=
  match m with
  | Ok a => Returned a
  | Raise e => Raised (Exn e)
  end.

Definition none_plus_int : string :=
  "unsupported operand type(s) for +: 'NoneType' and 'int'".

(** [i + 1] on the result of a lookup. *)
Definition plus_one (i : option nat) : outcome nat :=
  match i with
  | Some n => Returned (S n)
  | None => Raised (TypeError none_plus_int)
  end.

Section Intensity.

Variable pval : Type.

(** The type of a matrix cell, and
    [diff_matrix.iloc[r0:r1, c0:c1].mean().to_numpy()] for the difference
    matrix at hand: the means of the columns of the block, a slice bound
    being an index or [None]. *)
Variable cell : Type.
Variable iloc_mean : option nat -> option nat -> option nat -> option nat -> list cell.

Variable mannwhitneyu : list cell -> list cell -> res pval.

(** The loop over [enumerate(small_tads_coords)].  [corrected_2] holds
    [start_2_corrected] and [end_2_corrected], [None] while they are
    unbound; the last small TAD is the one with nothing after it. *)
Fixpoint intensity_loop (coords : list (Q * Q)) (small_tads_coords : list (Q * Q))
    (corrected_2 : option (option nat * option nat))
    (square_intensity hill_intensity : list cell) : outcome (list cell * list cell) :=
  match small_tads_coords with
  | [] => Returned (square_intensity, hill_intensity)
  | small_tad :: rest =>
      match rest with
      | [] =>
          match corrected_2 with
          | None => Raised (Exn (UnboundLocalError "start_2_corrected"))
          | Some (start_2_corrected, end_2_corrected) =>
              stop <-- plus_one end_2_corrected ;;
              Returned
                (square_intensity,
                 hill_intensity
                 ++ iloc_mean start_2_corrected (Some stop) start_2_corrected (Some stop))
          end
      | next :: _ =>
          start_1_corrected <-- of_res (find_coords (fst small_tad) coords) ;;
          end_1_corrected <-- of_res (find_coords (snd small_tad) coords) ;;
          start_2_corrected <-- of_res (find_coords (fst next) coords) ;;
          end_2_corrected <-- of_res (find_coords (snd next) coords) ;;
          col_start <-- plus_one start_2_corrected ;;
          col_stop <-- plus_one end_2_corrected ;;
          let square_intensity :=
            square_intensity
            ++ iloc_mean start_1_corrected end_1_corrected (Some col_start) (Some col_stop) in
          stop <-- plus_one end_1_corrected ;;
          let hill_intensity :=
            hill_intensity
            ++ iloc_mean start_1_corrected (Some stop) start_1_corrected (Some stop) in
          intensity_loop coords rest (Some (start_2_corrected, end_2_corrected))
            square_intensity hill_intensity
      end
  end.

Definition calculate_intensity (small_tads_coords : list (Q * Q)) (coords : list (Q * Q))
  : outcome pval :=
  samples <-- intensity_loop coords small_tads_coords None [] [] ;;
  of_res (calculate_pvalue pval (list cell) mannwhitneyu (fst samples) (snd samples)).

End Intensity.

Arguments intensity_loop {cell} iloc_mean coords small_tads_coords corrected_2
  square_intensity hill_intensity.
Arguments calculate_intensity {pval cell} iloc_mean mannwhitneyu small_tads_coords coords.

(** The positions whose bin index is incremented: the end of every small
    TAD and the start of every small TAD but the first. *)
Definition incremented (small_tads_coords : list (Q * Q)) : list Q :=
  map snd small_tads_coords ++ map fst (tl small_tads_coords).

(** ** A small input *)

(** One main TAD and two small TADs inside it; the first row of the table
    that [find_split] returns for them with its default parameters. *)
Definition example_tad1 : list Tad.t := [Tad.mk "chr1" 0 300].

Definition example_tad2 : list Tad.t := [Tad.mk "chr1" 0 140; Tad.mk "chr1" 150 300].

Definition example_row : Z * Row :=
  (0%Z, mkRow "chr1" (-300000 # 2) (300600 # 2) (3300 # 10) 0 140 140).

(** A scoring of the coolers that always answers. *)
Definition example_score : string * Q * Q -> list (Q * Q) -> res Q :=
  fun _ _ => Ok (1 # 2).

(** The second row of that table. *)
Definition example_row2 : Z * Row :=
  (1%Z, mkRow "chr1" (-300000 # 2) (300600 # 2) (3300 # 10) 150 300 150).

(** A scoring that, like [calculate_intensity], fails on a single small
    TAD and answers on two or more. *)
Definition example_score_pairs : string * Q * Q -> list (Q * Q) -> res Q :=
  fun _ small_tads_coords =>
    match small_tads_coords with
    | _ :: _ :: _ => Ok (1 # 2)
    | _ => Raise (UnboundLocalError "start_2_corrected")
    end.

(** A test that always answers. *)
Definition example_mannwhitneyu : list Q -> list Q -> res Q :=
  fun _ _ => Ok (1 # 2).

(** * Properties *)

(** ** Normalisation round trip *)

(** C2. Take any table of TADs, normalise it with
    [modify_tads_map_by_condition], and let the windows be the main-TAD
    columns of the rows of a table, one window per row, whatever the other
    columns, the labels and the flexibility factor are.  Then
    [demodify_tads_map] with the same [binsize] gives every row the
    chromosome, start and end of the TAD it came from, with end minus
    start as size, and changes nothing else in the table. *)
Theorem demodify_inverts_modify (pval : Type) (tad1_chr_coords : list Tad.t)
    (binsize : Z) (length_flexibility : Q) (df : list (ARow pval)) :
  Forall2 (fun w x => window_of w (row x))
    (modify_tads_map_by_condition tad1_chr_coords binsize length_flexibility) df ->
  Forall2 (fun t x => restored t (row x)) tad1_chr_coords (demodify_tads_map df binsize)
  /\ Forall2 same_rest df (demodify_tads_map df binsize).
Proof.
  unfold modify_tads_map_by_condition, demodify_tads_map.
  revert df; induction tad1_chr_coords as [|t tads IH]; intros df H; cbn [map] in H.
  - inversion H; subst; cbn; split; constructor.
  - inversion H as [|w x ws df' (Hc & Hs & He & Hz) Hrest]; subst.
    destruct (IH df' Hrest) as [IH1 IH2]; cbn [map]; split; constructor; auto.
    + unfold restored; cbn [row demodify_row chrom start_tad1 end_tad1 size_tad1].
      rewrite Hc, Hs, He; cbn.
      split; [reflexivity|]; repeat split; ring.
    + unfold same_rest; cbn; auto.
Qed.

Lemma demodify_inverts_modify_witness :
  Forall2 (fun t x => restored t (row x)) [Tad.mk "chr1" 0 300; Tad.mk "chr1" 400 900]
    (demodify_tads_map
       [mkARow 0%Z (mkRow "chr1" (-300000 # 2) (300600 # 2) (3300 # 10) 0 140 140)
               (Some (1 # 2));
        mkARow 1%Z (mkRow "chr1" (-299200 # 2) (301800 # 2) (5500 # 10) 450 800 350)
               (@None Q)]
       100000)
  /\ Forall2 same_rest
       [mkARow 0%Z (mkRow "chr1" (-300000 # 2) (300600 # 2) (3300 # 10) 0 140 140)
               (Some (1 # 2));
        mkARow 1%Z (mkRow "chr1" (-299200 # 2) (301800 # 2) (5500 # 10) 450 800 350)
               (@None Q)]
       (demodify_tads_map
          [mkARow 0%Z (mkRow "chr1" (-300000 # 2) (300600 # 2) (3300 # 10) 0 140 140)
                  (Some (1 # 2));
           mkARow 1%Z (mkRow "chr1" (-299200 # 2) (301800 # 2) (5500 # 10) 450 800 350)
                  (@None Q)]
          100000).
Proof.
  apply (demodify_inverts_modify Q [Tad.mk "chr1" 0 300; Tad.mk "chr1" 400 900]
           100000 (11 # 10)).
  repeat constructor; reflexivity.
Defined.

(** ** Direction of the de-normalisation *)

(** C5 fails as stated: on the window [-150, 450] of the TAD [0, 300] at
    bin size 100 the step gives start 0 and end 300; it does not subtract
    from the start and add to the end. *)
Lemma demodify_does_not_widen :
  let r := mkRow "chr1" (-150) 450 330 0 140 140 in
  start_tad1 (demodify_row 100 r) == 0
  /\ end_tad1 (demodify_row 100 r) == 300
  /\ ~ widened 100 r (demodify_row 100 r).
Proof.
  cbn; repeat split.
  intros [H _]; vm_compute in H; discriminate.
Qed.

(** C5, amended. The step that [save_frame] applies before it writes the
    table adds [1.5 * binsize] to [start_tad1] and subtracts it from
    [end_tad1] on every row, then sets [size_tad1] to the difference of the
    two adjusted columns; labels and p-values are kept, and the table of
    the caller is the table so changed. *)
Theorem demodify_narrows (pval : Type) (option : string)
    (df : list (ARow pval)) (binsize : Z) :
  fst (save_frame option df binsize) = demodify_tads_map df binsize
  /\ Forall2
       (fun x x' =>
          label x' = label x /\ pvalue x' = pvalue x
          /\ narrowed binsize (row x) (row x'))
       df (demodify_tads_map df binsize).
Proof.
  split; [reflexivity|].
  induction df as [|x df IH]; cbn; constructor; auto.
  unfold narrowed; cbn; repeat split; reflexivity.
Qed.

(** ** Bin lookup *)

Lemma inside_bool (position : Q) (first second : Q) :
  Qle_bool first position && Qle_bool position second = true
  <-> inside position (first, second).
Proof.
  unfold inside; cbn.
  rewrite andb_true_iff, !Qle_bool_iff; tauto.
Qed.

Lemma find_coords_from_some (position : Q) (coords : list (Q * Q)) :
  forall i k,
    find_coords_from i position coords = Some k <->
    exists j interval,
      k = (i + j)%nat
      /\ nth_error coords j = Some interval
      /\ inside position interval
      /\ forall j' interval', (j' < j)%nat ->
           nth_error coords j' = Some interval' -> ~ inside position interval'.
Proof.
  induction coords as [|[first second] rest IH]; intros i k; cbn.
  - split; [discriminate|].
    intros (j & iv & _ & H & _); destruct j; discriminate.
  - destruct (Qle_bool first position && Qle_bool position second) eqn:E.
    + apply inside_bool in E. split.
      * intros H; injection H as <-.
        exists 0%nat, (first, second).
        split; [lia|]. split; [reflexivity|]. split; [exact E|].
        intros j' iv' Hlt; lia.
      * intros (j & iv & -> & Hn & Hin & Hmin).
        destruct j as [|j]; [f_equal; lia|].
        exfalso; apply (Hmin 0%nat (first, second)); [lia|reflexivity|exact E].
    + assert (Hout : ~ inside position (first, second)).
      { intro H; apply inside_bool in H; congruence. }
      rewrite IH; split.
      * intros (j & iv & -> & Hn & Hin & Hmin).
        exists (S j), iv.
        split; [lia|]. split; [exact Hn|]. split; [exact Hin|].
        intros [|j'] iv' Hlt Hn'; cbn in Hn'.
        -- injection Hn' as <-; exact Hout.
        -- apply (Hmin j' iv'); [lia|exact Hn'].
      * intros (j & iv & -> & Hn & Hin & Hmin).
        destruct j as [|j]; cbn in Hn.
        -- injection Hn as <-; contradiction.
        -- exists j, iv.
           split; [lia|]. split; [exact Hn|]. split; [exact Hin|].
           intros j' iv' Hlt Hn'; apply (Hmin (S j') iv'); [lia|exact Hn'].
Qed.

Lemma find_coords_from_none (position : Q) (coords : list (Q * Q)) :
  forall i,
    find_coords_from i position coords = None <->
    forall interval, In interval coords -> ~ inside position interval.
Proof.
  induction coords as [|[first second] rest IH]; intros i; cbn.
  - split; [intros _ iv []|reflexivity].
  - destruct (Qle_bool first position && Qle_bool position second) eqn:E.
    + apply inside_bool in E; split; [discriminate|].
      intros H; exfalso; apply (H (first, second)); auto.
    + assert (Hout : ~ inside position (first, second)).
      { intro H; apply inside_bool in H; congruence. }
      rewrite IH; split.
      * intros H iv [<-|Hin]; auto.
      * intros H iv Hin; apply H; auto.
Qed.




(** ** Counting distinct elements *)

Lemma enumerates_length {A : Type} (r1 r2 l : list A) :
  enumerates r1 l -> enumerates r2 l -> List.length r1 = List.length r2.
Proof.
  intros [N1 E1] [N2 E2].
  apply Nat.le_antisymm; apply NoDup_incl_length; auto;
    intros a Ha; [apply E2, E1|apply E1, E2]; exact Ha.
Qed.

Lemma distinct_count_unique {A : Type} (l : list A) (n m : nat) :
  distinct_count l n -> distinct_count l m -> n = m.
Proof.
  intros (r1 & H1 & <-) (r2 & H2 & <-); eapply enumerates_length; eauto.
Qed.

(** ** Chromosome lists *)

Lemma existsb_eqb_In (c : string) (l : list string) :
  existsb (String.eqb c) l = true <-> In c l.
Proof.
  rewrite existsb_exists; split.
  - intros (d & Hin & E); apply String.eqb_eq in E; subst; exact Hin.
  - intros Hin; exists c; split; [exact Hin|apply String.eqb_refl].
Qed.

Lemma unique_acc_In (l : list string) :
  forall seen c, In c (unique_acc seen l) <-> In c l /\ ~ In c seen.
Proof.
  induction l as [|a t IH]; intros seen c; cbn; [tauto|].
  destruct (existsb (String.eqb a) seen) eqn:E.
  - apply existsb_eqb_In in E. rewrite IH; split.
    + intros [H1 H2]; auto.
    + intros [[->|H1] H2]; [contradiction|auto].
  - assert (Ha : ~ In a seen) by (rewrite <- existsb_eqb_In; congruence).
    cbn; rewrite IH; cbn; split.
    + intros [->|[H1 H2]]; auto.
    + intros [[->|H1] H2]; auto.
      destruct (string_dec a c) as [->|Hne]; auto.
      right; split; auto; intros [?|?]; auto.
Qed.

Lemma unique_acc_NoDup (l : list string) :
  forall seen, NoDup (unique_acc seen l).
Proof.
  induction l as [|a t IH]; intros seen; cbn; [constructor|].
  destruct (existsb (String.eqb a) seen); auto.
  constructor; auto.
  rewrite unique_acc_In; cbn; tauto.
Qed.

Lemma unique_enumerates (l : list string) : enumerates (unique l) l.
Proof.
  split; [apply unique_acc_NoDup|].
  intros c; unfold unique; rewrite unique_acc_In; cbn; tauto.
Qed.

(** An element that [unique] outputs after [c] does not occur in the input
    before the first occurrence of [c]. *)
Lemma unique_acc_order (l : list string) :
  forall seen u1 c u2,
    unique_acc seen l = u1 ++ c :: u2 ->
    exists p q, l = p ++ c :: q /\ ~ In c p /\ forall d, In d u2 -> ~ In d p.
Proof.
  induction l as [|a t IH]; intros seen u1 c u2 H; cbn in H.
  - destruct u1; discriminate.
  - assert (Hout : forall x s, In x (unique_acc s t) -> ~ In x s)
      by (intros x s Hx; apply unique_acc_In in Hx; tauto).
    destruct (existsb (String.eqb a) seen) eqn:E.
    + apply existsb_eqb_In in E.
      destruct (IH _ _ _ _ H) as (p & q & -> & Hc & Hd).
      assert (Hin : forall x, In x (c :: u2) -> x <> a).
      { intros x Hx ->; apply (Hout a seen); auto.
        rewrite H; apply in_or_app; right; exact Hx. }
      exists (a :: p), q; split; [reflexivity|]; split.
      * intros [Ha|Hp]; [apply (Hin c); cbn; auto|auto].
      * intros d Hdu [Ha|Hp]; [apply (Hin d); cbn; auto|apply (Hd d); auto].
    + destruct u1 as [|a' u1]; cbn in H; injection H as -> H.
      * exists [], t; split; [reflexivity|]; split; auto.
      * destruct (IH _ _ _ _ H) as (p & q & -> & Hc & Hd).
        assert (Hin : forall x, In x (c :: u2) -> x <> a').
        { intros x Hx ->; apply (Hout a' (a' :: seen)); cbn; auto.
          rewrite H; apply in_or_app; right; exact Hx. }
        exists (a' :: p), q; split; [reflexivity|]; split.
        -- intros [Ha|Hp]; [apply (Hin c); cbn; auto|auto].
        -- intros d Hdu [Ha|Hp]; [apply (Hin d); cbn; auto|apply (Hd d); auto].
Qed.

Lemma filter_split {A : Type} (f : A -> bool) (l : list A) :
  forall a x b,
    filter f l = a ++ x :: b ->
    exists l1 l2, l = l1 ++ x :: l2 /\ filter f l1 = a /\ filter f l2 = b.
Proof.
  induction l as [|y t IH]; intros a x b H; cbn in H.
  - destruct a; discriminate.
  - destruct (f y) eqn:E.
    + destruct a as [|y' a]; cbn in H; injection H as -> H.
      * exists [], t; auto.
      * destruct (IH _ _ _ H) as (l1 & l2 & -> & <- & <-).
        exists (y' :: l1), l2; cbn; rewrite E; auto.
    + destruct (IH _ _ _ H) as (l1 & l2 & -> & <- & <-).
      exists (y :: l1), l2; cbn; rewrite E; auto.
Qed.

(** C9 fails as stated: the chromosome sets of these two tables differ
    ([chr2] is only in the first, [chr3] only in the second), and no warning
    is issued, because both tables have two chromosomes. *)
Lemma get_chrom_list_silent_on_equal_counts :
  let tad1 := [Tad.mk "chr1" 0 300; Tad.mk "chr2" 0 300] in
  let tad2 := [Tad.mk "chr1" 0 140; Tad.mk "chr3" 0 140] in
  (In "chr2" (map Tad.chrom tad1) /\ ~ In "chr2" (map Tad.chrom tad2))
  /\ get_chrom_list tad1 tad2 = (["chr1"], []).
Proof.
  cbn; split; [split; [auto|]|reflexivity].
  intros [H|[H|[]]]; discriminate.
Qed.

(** C9, amended. [get_chrom_list] warns exactly when the two tables have
    different numbers of distinct chromosomes.  In every case it returns,
    without repetition, the chromosomes that occur in both tables, in the
    order of their first occurrence in the first table: a chromosome
    returned after [c] does not occur in the first table before [c]
    does. *)
Theorem get_chrom_list_intersection (tad1 tad2 : list Tad.t) :
  let chroms := fst (get_chrom_list tad1 tad2) in
  let warnings := snd (get_chrom_list tad1 tad2) in
  (forall n1 n2,
      distinct_count (map Tad.chrom tad1) n1 ->
      distinct_count (map Tad.chrom tad2) n2 ->
      (n1 <> n2 ->
       warnings = [UserWarning "Different numbers of chromosomes were detected!"])
      /\ (n1 = n2 -> warnings = []))
  /\ NoDup chroms
  /\ (forall c, In c chroms <->
                In c (map Tad.chrom tad1) /\ In c (map Tad.chrom tad2))
  /\ (forall before c between d after,
        chroms = before ++ c :: between ++ d :: after ->
        exists p q,
          map Tad.chrom tad1 = p ++ c :: q /\ ~ In c p /\ ~ In d p).
Proof.
  cbn; split; [|split; [|split]].
  - intros n1 n2 D1 D2.
    assert (E1 : List.length (unique (map Tad.chrom tad1)) = n1).
    { apply (distinct_count_unique (map Tad.chrom tad1)); auto.
      eexists; split; [apply unique_enumerates|reflexivity]. }
    assert (E2 : List.length (unique (map Tad.chrom tad2)) = n2).
    { apply (distinct_count_unique (map Tad.chrom tad2)); auto.
      eexists; split; [apply unique_enumerates|reflexivity]. }
    rewrite E1, E2; split; intros H.
    + apply Nat.eqb_neq in H; rewrite H; reflexivity.
    + apply Nat.eqb_eq in H; rewrite H; reflexivity.
  - apply NoDup_filter, unique_acc_NoDup.
  - intros c; rewrite filter_In, existsb_eqb_In.
    unfold unique; rewrite !unique_acc_In; cbn; tauto.
  - intros before c between d after H.
    apply filter_split in H; destruct H as (u1 & u2 & H & _ & H2).
    destruct (unique_acc_order _ _ _ _ _ H) as (p & q & Hl & Hc & Hd).
    exists p, q; split; [exact Hl|]; split; [exact Hc|].
    apply Hd.
    assert (Hin : In d (filter
              (fun chrom => existsb (String.eqb chrom) (unique (map Tad.chrom tad2))) u2))
      by (rewrite H2; apply in_or_app; right; cbn; auto).
    apply filter_In in Hin; tauto.
Qed.

Lemma get_chrom_list_intersection_witness :
  snd (get_chrom_list [Tad.mk "chr1" 0 300; Tad.mk "chr2" 0 300]
                      [Tad.mk "chr2" 0 140])
  = [UserWarning "Different numbers of chromosomes were detected!"].
Proof.
  refine (proj1 (proj1 (get_chrom_list_intersection
                          [Tad.mk "chr1" 0 300; Tad.mk "chr2" 0 300]
                          [Tad.mk "chr2" 0 140]) 2%nat 1%nat _ _) _).
  - exists ["chr1"; "chr2"]; split; [split|reflexivity].
    + repeat constructor; cbn; intuition discriminate.
    + intros a; cbn; tauto.
  - exists ["chr2"]; split; [split|reflexivity].
    + repeat constructor; cbn; intuition discriminate.
    + intros a; cbn; tauto.
  - discriminate.
Defined.

(** ** The significance test *)

(** [calculate_pvalue] has no test of its own on the two samples: what it
    returns or raises, on empty samples as on any others, is what
    [mannwhitneyu] returns or raises. *)
Remark calculate_pvalue_is_mannwhitneyu (pval sample : Type)
    (mannwhitneyu : sample -> sample -> res pval)
    (square_intensity hill_intensity : sample) :
  calculate_pvalue pval sample mannwhitneyu square_intensity hill_intensity
  = mannwhitneyu square_intensity hill_intensity.
Proof. reflexivity. Qed.

(** ** Singleton groups and the aggregate size check in [find_split] *)

(** C3 does not hold of the program on this input.  Two main TADs
    share their start, [0, 300] and [0, 500], and each contains the one
    small TAD [0, 290].  The two rows have the same [start_tad1], so
    [duplicated(subset='start_tad1')] keeps both; they are two groups of
    one row each. *)
Theorem find_split_keeps_singleton_groups :
  let out :=
    find_split [Tad.mk "chr1" 0 300; Tad.mk "chr1" 0 500] [Tad.mk "chr1" 0 290]
               default_binsize default_length_flexibility in
  List.length out = 2%nat
  /\ forall x, In x out ->
       List.length
         (filter (fun y => coords_eqb (main_coords (snd y)) (main_coords (snd x))) out)
       = 1%nat.
Proof.
  vm_compute; split; [reflexivity|].
  intros x [<-|[<-|[]]]; reflexivity.
Qed.

(** C6 does not hold of the program on this input.  The main TADs
    [0, 300] and [0, 1000] share their start; the small TADs [0, 200] and
    [200, 400] lie in both windows.  The group of [0, 300] has adjusted
    size 330 and small TADs of total size 400: it fails the aggregate
    check, and its two rows are returned all the same, because the group
    of [0, 1000] passes and has the same [start_tad1]. *)
Theorem find_split_keeps_oversized_group :
  let out :=
    find_split [Tad.mk "chr1" 0 300; Tad.mk "chr1" 0 1000]
               [Tad.mk "chr1" 0 200; Tad.mk "chr1" 200 400]
               default_binsize default_length_flexibility in
  exists x,
    In x out
    /\ List.length (filter (same_window (snd x)) (map snd out)) = 2%nat
    /\ size_tad1 (snd x) == 330
    /\ fold_left Qplus
         (map size_tad2 (filter (same_window (snd x)) (map snd out))) 0 == 400
    /\ ~ fold_left Qplus
          (map size_tad2 (filter (same_window (snd x)) (map snd out))) 0
        <= size_tad1 (snd x).
Proof.
  eexists; split; [left; reflexivity|].
  split; [|split; [|split]]; try (vm_compute; reflexivity).
  intros H; vm_compute in H; apply H; reflexivity.
Qed.

(** ** The unbound variable of [choose_region] *)

(** C10. [main_tad_coords] is bound only by the row labelled 0.  On a
    table with at least one row whose first label is not 0, the first
    comparison reads the variable unbound and [choose_region] raises
    [UnboundLocalError]; no table is returned. *)
Theorem choose_region_unbound_main_tad_coords (pval : Type)
    (intensity_of_region : string * Q * Q -> list (Q * Q) -> res pval)
    (index : Z) (r : Row) (rest : Frame) :
  index <> 0%Z ->
  choose_region intensity_of_region ((index, r) :: rest)
  = Raise (UnboundLocalError "main_tad_coords").
Proof.
  intros H.
  unfold choose_region, choose_region_run; cbn.
  unfold loop_body; cbn.
  destruct (Z.eqb_spec index 0) as [E|_]; [contradiction|reflexivity].
Qed.

(** The table that [find_split] returns for one chromosome when the first
    pair of the merge is not a candidate: its labels start at 2. *)
Lemma choose_region_unbound_main_tad_coords_witness :
  choose_region (fun _ _ => Ok 1)
    (find_split [Tad.mk "chr1" 0 100; Tad.mk "chr1" 100 400]
                [Tad.mk "chr1" 100 240; Tad.mk "chr1" 250 400]
                default_binsize default_length_flexibility)
  = Raise (UnboundLocalError "main_tad_coords").
Proof.
  exact (choose_region_unbound_main_tad_coords Q (fun _ _ => Ok 1) 2%Z
           (mkRow "chr1" (-299800 # 2) (300800 # 2) (3300 # 10) 100 240 140)
           [(3%Z, mkRow "chr1" (-299800 # 2) (300800 # 2) (3300 # 10) 250 400 150)]
           ltac:(discriminate)).
Defined.

(** The same table in the pipeline: one chromosome, so the labels are
    never reset, and the run ends in the traceback. *)
Example main_traceback_on_unreset_index :
  main_split_merge_detection (fun _ _ => Ok (1 # 2))
    (mkArguments [Tad.mk "chr1" 0 100; Tad.mk "chr1" 100 400]
                 [Tad.mk "chr1" 100 240; Tad.mk "chr1" 250 400] 100000)
  = (None, Stderr_traceback (UnboundLocalError "main_tad_coords")).
Proof. vm_compute; reflexivity. Qed.

(** ** Groups *)


Lemma coords_eqb_refl (a : string * Q * Q) : coords_eqb a a = true.
Proof.
  destruct a as [[c s] e]; cbn.
  rewrite String.eqb_refl, !Qeq_bool_refl; reflexivity.
Qed.

Lemma coords_eqb_sym (a b : string * Q * Q) : coords_eqb a b = coords_eqb b a.
Proof.
  destruct a as [[c1 s1] e1], b as [[c2 s2] e2]; cbn.
  rewrite (String.eqb_sym c1 c2).
  assert (H : forall x y, Qeq_bool x y = Qeq_bool y x).
  { intros x y; destruct (Qeq_bool x y) eqn:E1, (Qeq_bool y x) eqn:E2; auto.
    - apply Qeq_bool_sym in E1; congruence.
    - apply Qeq_bool_sym in E2; congruence. }
  rewrite (H s1 s2), (H e1 e2); reflexivity.
Qed.

Lemma coords_eqb_trans (a b c : string * Q * Q) :
  coords_eqb a b = true -> coords_eqb b c = true -> coords_eqb a c = true.
Proof.
  destruct a as [[c1 s1] e1], b as [[c2 s2] e2], c as [[c3 s3] e3]; cbn.
  intros H H'; apply andb_true_iff in H, H'.
  destruct H as [H H3], H' as [H' H6]; apply andb_true_iff in H, H'.
  destruct H as [H1 H2], H' as [H4 H5].
  apply String.eqb_eq in H1, H4; subst.
  rewrite String.eqb_refl, (Qeq_bool_trans _ _ _ H2 H5), (Qeq_bool_trans _ _ _ H3 H6).
  reflexivity.
Qed.

Lemma coords_eqb_congr (a b c : string * Q * Q) :
  coords_eqb a b = true -> coords_eqb a c = coords_eqb b c.
Proof.
  intros H.
  destruct (coords_eqb a c) eqn:E1, (coords_eqb b c) eqn:E2; auto.
  - rewrite coords_eqb_sym in H.
    rewrite (coords_eqb_trans _ _ _ H E1) in E2; discriminate.
  - rewrite (coords_eqb_trans _ _ _ H E2) in E1; discriminate.
Qed.

(** ** When [choose_region] returns *)

Section Returns.
Variable pval : Type.
Variable intensity_of_region : string * Q * Q -> list (Q * Q) -> res pval.

(** The coolers answer every request. *)
Hypothesis intensity_total :
  forall region smalls, exists p, intensity_of_region region smalls = Ok p.

Lemma create_diff_matrix_returns (m : string * Q * Q) (smalls : list (Q * Q)) :
  smalls <> [] -> exists p, create_diff_matrix intensity_of_region m smalls = Ok p.
Proof.
  intros Hne; unfold create_diff_matrix, find_region.
  destruct m as [[c s] e], smalls as [|x smalls]; [congruence|]; cbn.
  apply intensity_total.
Qed.

Lemma score_and_broadcast_returns (st : locals pval) :
  group_open st ->
  exists st', score_and_broadcast intensity_of_region st = Ok st' /\ group_open st'.
Proof.
  intros (Hm & Hs & Hb); unfold score_and_broadcast.
  destruct (main_tad_coords st) as [m|] eqn:Em; [|congruence].
  destruct (create_diff_matrix_returns m _ Hs) as [p Hp]; rewrite Hp; cbn [bind].
  destruct (big_tad_indicies st) as [|first big] eqn:Eb; [congruence|].
  eexists; split; [reflexivity|].
  unfold group_open; cbn; repeat split; try discriminate; auto.
Qed.

Lemma loop_body_returns (lastl : Z) (st : locals pval) (x : Z * Row) :
  group_open st \/ fst x = 0%Z ->
  exists st', loop_body intensity_of_region lastl st x = Ok st' /\ group_open st'.
Proof.
  intros Hcase; unfold loop_body.
  assert (Hfinal : forall st1 : locals pval,
             main_tad_coords st1 <> None ->
             exists st',
               (let st2 :=
                  mkLocals (main_tad_coords st1)
                    (small_tads_coords st1 ++ [(start_tad2 (snd x), end_tad2 (snd x))])
                    (big_tad_indicies st1 ++ [fst x]) (df_with_value st1) (calls st1) in
                if Z.eqb (fst x) lastl
                then score_and_broadcast intensity_of_region st2 else Ok st2) = Ok st'
               /\ group_open st').
  { intros st1 Hm1; cbn zeta.
    match goal with |- context [if _ then score_and_broadcast _ ?s else _] =>
      assert (Hopen : group_open s) end.
    { unfold group_open; cbn; repeat split; auto;
        intros E; apply app_eq_nil in E; destruct E; discriminate. }
    destruct (Z.eqb (fst x) lastl); [apply score_and_broadcast_returns; exact Hopen|].
    eexists; split; [reflexivity|exact Hopen]. }
  destruct (Z.eqb_spec (fst x) 0) as [E0|N0]; cbn [main_tad_coords].
  - rewrite coords_eqb_refl; cbn [negb bind].
    apply (Hfinal (mkLocals (Some (main_coords (snd x))) (small_tads_coords st)
                     (big_tad_indicies st) (df_with_value st) (calls st))).
    cbn; discriminate.
  - destruct Hcase as [Hopen|E0]; [|contradiction].
    pose proof Hopen as (Hm & _ & _).
    destruct (main_tad_coords st) as [m|] eqn:Em; [|congruence].
    destruct (coords_eqb m (main_coords (snd x))); cbn [negb bind].
    + apply (Hfinal st); congruence.
    + destruct (score_and_broadcast_returns st Hopen) as (st1 & Hs & _).
      rewrite Hs; cbn [bind].
      apply (Hfinal (mkLocals (Some (main_coords (snd x))) [] []
                       (df_with_value st1) (calls st1))).
      cbn; discriminate.
Qed.

Lemma iterrows_returns (lastl : Z) (rows : Frame) :
  forall st, group_open st -> exists st', iterrows intensity_of_region lastl rows st = Ok st'.
Proof.
  induction rows as [|x rows IH]; intros st Hopen; cbn [iterrows].
  - eexists; reflexivity.
  - destruct (loop_body_returns lastl st x) as (st1 & H1 & Hopen1); auto.
    rewrite H1; cbn [bind]; apply IH; exact Hopen1.
Qed.

(** When scoring never fails, [choose_region] returns on the empty table
    and on every table whose first label is 0. *)
Lemma choose_region_returns (df : Frame) :
  match df with
  | [] => True
  | x :: _ => fst x = 0%Z
  end ->
  exists out, choose_region intensity_of_region df = Ok out.
Proof.
  intros H; unfold choose_region, choose_region_run.
  destruct df as [|x rest]; cbn [iterrows].
  - eexists; reflexivity.
  - match goal with |- context [loop_body _ ?l ?s x] =>
      destruct (loop_body_returns l s x) as (st1 & H1 & Hopen1) end; auto.
    rewrite H1; cbn [bind].
    destruct (iterrows_returns (List.last (map fst (x :: rest)) 0%Z) rest st1 Hopen1)
      as (st' & H'); rewrite H'; cbn [bind].
    eexists; reflexivity.
Qed.

End Returns.

(** ** The loop of [choose_region] *)

Section Loop.
Variable pval : Type.
Variable intensity_of_region : string * Q * Q -> list (Q * Q) -> res pval.

Lemma loc_fill_run (p : pval) (z : ARow pval) (post : list (ARow pval)) :
  forall body,
    (forall x, In x body -> label x <> label z) ->
    loc_fill (label z) p (body ++ z :: post)
    = map (set_pvalue p) (body ++ [z]) ++ post.
Proof.
  induction body as [|x body IH]; intros H; cbn.
  - rewrite Z.eqb_refl; reflexivity.
  - destruct (Z.eqb_spec (label x) (label z)) as [E|_].
    + exfalso; apply (H x); cbn; auto.
    + rewrite IH; [reflexivity|]; intros y Hy; apply H; cbn; auto.
Qed.

Lemma loc_assign_run (p : pval) (first : Z) (z : ARow pval)
    (body post : list (ARow pval)) :
  label (hd z body) = first ->
  (forall x, In x body -> label x <> label z) ->
  forall pre,
    ~ In first (map label pre) ->
    loc_assign first (label z) p (pre ++ body ++ z :: post)
    = pre ++ map (set_pvalue p) (body ++ [z]) ++ post.
Proof.
  intros Hfirst Hbody; induction pre as [|a pre IH]; intros Hpre.
  - cbn [app]. rewrite <- loc_fill_run by exact Hbody.
    destruct body as [|x body]; cbn in *; subst first; rewrite Z.eqb_refl; reflexivity.
  - cbn. destruct (Z.eqb_spec (label a) first) as [E|_].
    + exfalso; apply Hpre; cbn; auto.
    + rewrite IH; [reflexivity|]; intros Hin; apply Hpre; cbn; auto.
Qed.

Lemma score_and_broadcast_ok (st st' : locals pval) :
  score_and_broadcast intensity_of_region st = Ok st' ->
  exists m p first,
    main_tad_coords st = Some m
    /\ create_diff_matrix intensity_of_region m (small_tads_coords st) = Ok p
    /\ hd_error (big_tad_indicies st) = Some first
    /\ main_tad_coords st' = main_tad_coords st
    /\ small_tads_coords st' = small_tads_coords st
    /\ big_tad_indicies st' = big_tad_indicies st
    /\ df_with_value st'
       = loc_assign first (List.last (big_tad_indicies st) first) p (df_with_value st)
    /\ calls st' = calls st ++ [(m, small_tads_coords st)].
Proof.
  unfold score_and_broadcast.
  destruct (main_tad_coords st) as [m|] eqn:Em; [|discriminate].
  destruct (create_diff_matrix intensity_of_region m (small_tads_coords st))
    as [p|e] eqn:Ep; cbn; [|discriminate].
  destruct (big_tad_indicies st) as [|first big] eqn:E; [discriminate|].
  intros H; injection H as <-; cbn.
  exists m, p, first; repeat split; auto.
Qed.

Lemma map_label_unscored (df : Frame) : map label (@unscored pval df) = map fst df.
Proof. unfold unscored; rewrite map_map; reflexivity. Qed.

Lemma map_label_scored (p : pval) (df : Frame) : map label (scored p df) = map fst df.
Proof. unfold scored; rewrite map_map; reflexivity. Qed.

Lemma set_pvalue_unscored (p : pval) (df : Frame) :
  map (set_pvalue p) (unscored df) = scored p df.
Proof. unfold unscored, scored; rewrite map_map; reflexivity. Qed.

(** Scoring the open group fills exactly its cells. *)
Lemma score_open_group (st st' : locals pval) pre c0 ctl rest :
  open_group st pre c0 ctl rest ->
  NoDup (map label pre ++ map fst (c0 :: ctl)) ->
  score_and_broadcast intensity_of_region st = Ok st' ->
  exists p,
    create_diff_matrix intensity_of_region (main_coords (snd c0))
      (map (fun y => small_coords (snd y)) (c0 :: ctl)) = Ok p
    /\ df_with_value st' = pre ++ scored p (c0 :: ctl) ++ unscored rest
    /\ calls st'
       = calls st ++ [(main_coords (snd c0),
                       map (fun y => small_coords (snd y)) (c0 :: ctl))].
Proof.
  intros (Hm & Hs & Hb & Hdf & _) Hnd H.
  apply score_and_broadcast_ok in H.
  destruct H as (m & p & first & Hm' & Hp & Hfirst & _ & _ & _ & Hdf' & Hc).
  rewrite Hm in Hm'; injection Hm' as <-.
  rewrite Hs in Hp, Hc. rewrite Hb in Hfirst, Hdf'.
  cbn in Hfirst; injection Hfirst as <-.
  exists p; split; [exact Hp|]; split; [|exact Hc].
  rewrite Hdf', Hdf.
  destruct (exists_last (l := c0 :: ctl)) as (body & z & Hz); [discriminate|].
  rewrite Hz in *.
  assert (Hlast : List.last (map fst (body ++ [z])) (fst c0) = fst z).
  { rewrite map_app; cbn; apply last_last. }
  rewrite Hlast.
  assert (Hu : @unscored pval (body ++ [z]) ++ unscored rest
               = unscored body ++ mkARow (fst z) (snd z) None :: unscored rest).
  { unfold unscored; rewrite map_app, <- app_assoc; reflexivity. }
  rewrite Hu.
  rewrite (loc_assign_run p (fst c0) (mkARow (fst z) (snd z) None)
             (unscored body) (unscored rest)).
  - f_equal; f_equal.
    unfold unscored, scored; rewrite !map_app, !map_map; reflexivity.
  - destruct body as [|b body]; cbn in Hz |- *; injection Hz as -> _; reflexivity.
  - intros x Hx; cbn.
    apply NoDup_app_remove_l in Hnd; rewrite map_app in Hnd; cbn in Hnd.
    apply NoDup_remove_2 in Hnd; rewrite app_nil_r in Hnd.
    intros E; apply Hnd; rewrite <- E.
    apply (in_map label) in Hx; rewrite map_label_unscored in Hx; exact Hx.
  - intros Hin. rewrite <- Hz in Hnd.
    apply NoDup_remove_2 in Hnd; apply Hnd; apply in_or_app; left; exact Hin.
Qed.

Lemma last_in (l : list Z) (d : Z) : l <> [] -> In (List.last l d) l.
Proof.
  induction l as [|a l IH]; [congruence|]; intros _.
  destruct l as [|b l]; [cbn; auto|].
  right; apply IH; discriminate.
Qed.

(** With distinct labels, the label of a row is the last label of the
    table only on the last row. *)
Lemma is_last_label (index : Z) (l : list Z) :
  NoDup (index :: l) ->
  Z.eqb index (List.last (index :: l) 0%Z) = true <-> l = [].
Proof.
  intros Hnd; split.
  - intros E; apply Z.eqb_eq in E.
    destruct l as [|b l]; [reflexivity|exfalso].
    apply NoDup_cons_iff in Hnd; apply (proj1 Hnd).
    rewrite E; apply (last_in (b :: l)); discriminate.
  - intros ->; cbn; apply Z.eqb_refl.
Qed.

(** One iteration, up to the test on the last label. *)
Lemma loop_body_open_group (st st2 : locals pval) pre c0 ctl x rest' lastl :
  fst x <> 0%Z ->
  open_group st pre c0 ctl (x :: rest') ->
  NoDup (map label pre ++ map fst (c0 :: ctl)) ->
  loop_body intensity_of_region lastl st x = Ok st2 ->
  exists mid pre' c0' ctl' cs,
    open_group mid pre' c0' ctl' rest'
    /\ calls mid = calls st ++ cs
    /\ (if Z.eqb (fst x) lastl
        then score_and_broadcast intensity_of_region mid else Ok mid) = Ok st2
    /\ ((same_group (snd c0) (snd x) = true
         /\ pre' = pre /\ c0' = c0 /\ ctl' = ctl ++ [x] /\ cs = [])
        \/ (same_group (snd c0) (snd x) = false
            /\ exists p,
                create_diff_matrix intensity_of_region (main_coords (snd c0))
                  (map (fun y => small_coords (snd y)) (c0 :: ctl)) = Ok p
                /\ pre' = pre ++ scored p (c0 :: ctl)
                /\ c0' = x /\ ctl' = []
                /\ cs = [(main_coords (snd c0),
                          map (fun y => small_coords (snd y)) (c0 :: ctl))])).
Proof.
  intros H0 Hopen Hnd.
  unfold loop_body.
  destruct (Z.eqb_spec (fst x) 0) as [E|_]; [contradiction|].
  pose proof Hopen as (Hm & Hs & Hb & Hdf & Hall).
  rewrite Hm.
  fold (same_group (snd c0) (snd x)).
  destruct (same_group (snd c0) (snd x)) eqn:Esame; cbn [negb bind].
  - intros H.
    eexists _, pre, c0, (ctl ++ [x]), []; split; [|split; [|split; [exact H|]]].
    + unfold open_group; cbn.
      rewrite Hm, Hs, Hb, Hdf; cbn.
      rewrite !map_app; cbn.
      split; [reflexivity|]. split; [reflexivity|]. split; [reflexivity|].
      split.
      * unfold unscored; cbn; rewrite ?map_app; cbn.
        rewrite <- ?app_assoc; reflexivity.
      * apply Forall_app; split; [exact Hall|]; constructor; auto.
    + cbn; rewrite app_nil_r; reflexivity.
    + left; auto.
  - destruct (score_and_broadcast intensity_of_region st) as [st1|e] eqn:Hscore;
      cbn [bind]; [|discriminate].
    destruct (score_open_group _ _ _ _ _ _ Hopen Hnd Hscore) as (p & Hp & Hdf1 & Hc1).
    intros H.
    eexists _, (pre ++ scored p (c0 :: ctl)), x, [], _;
      split; [|split; [|split; [exact H|]]].
    + unfold open_group; cbn.
      split; [reflexivity|]. split; [reflexivity|]. split; [reflexivity|].
      split; [|constructor].
      rewrite Hdf1, <- app_assoc; reflexivity.
    + cbn; exact Hc1.
    + right; split; [reflexivity|]; exists p; auto.
Qed.

Lemma last_cons_cons (a b : Z) (l : list Z) (d : Z) :
  List.last (a :: b :: l) d = List.last (b :: l) d.
Proof. reflexivity. Qed.

(** From a state with an open group to the end of the loop.  [index] is
    the label of the row read last. *)
Lemma iterrows_runs (lastl : Z) :
  forall rest mid st' pre c0 ctl index,
    open_group mid pre c0 ctl rest ->
    NoDup (map label pre ++ map fst (c0 :: ctl) ++ map fst rest) ->
    ~ In 0%Z (map fst rest) ->
    NoDup (index :: map fst rest) ->
    lastl = List.last (index :: map fst rest) 0%Z ->
    (st2 <- (if Z.eqb index lastl
             then score_and_broadcast intensity_of_region mid else Ok mid) ;;
     iterrows intensity_of_region lastl rest st2) = Ok st' ->
    exists out cs,
      df_with_value st' = pre ++ out
      /\ calls st' = calls mid ++ cs
      /\ Runs intensity_of_region ((c0 :: ctl) ++ rest) out cs.
Proof.
  induction rest as [|x rest IH]; intros mid st' pre c0 ctl index Hopen Hnd H0 Hidx Hlast H.
  - rewrite Hlast in H; cbn in H; rewrite Z.eqb_refl in H.
    destruct (score_and_broadcast intensity_of_region mid) as [st2|e] eqn:Hscore;
      cbn in H; [|discriminate].
    injection H as <-.
    cbn in Hnd; rewrite app_nil_r in Hnd.
    destruct (score_open_group _ _ _ _ _ _ Hopen Hnd Hscore) as (p & Hp & Hdf & Hc).
    eexists _, _; split; [exact Hdf|]; split; [exact Hc|].
    cbn [unscored map]; apply Runs_cons; auto; [|constructor].
    destruct Hopen as (_ & _ & _ & _ & Hall); exact Hall.
  - assert (Enot : Z.eqb index lastl = false).
    { destruct (Z.eqb index lastl) eqn:E; [|reflexivity].
      rewrite Hlast in E; apply is_last_label in E; [discriminate|exact Hidx]. }
    rewrite Enot in H; cbn [bind iterrows] in H.
    destruct (loop_body intensity_of_region lastl mid x) as [st2|e] eqn:Hbody;
      cbn [bind] in H; [|discriminate].
    assert (Hx0 : fst x <> 0%Z) by (intros E; apply H0; cbn; auto).
    assert (Hnd' : NoDup (map label pre ++ map fst (c0 :: ctl))).
    { rewrite app_assoc in Hnd; apply NoDup_app_remove_r in Hnd; exact Hnd. }
    destruct (loop_body_open_group _ _ _ _ _ _ _ _ Hx0 Hopen Hnd' Hbody)
      as (mid' & pre' & c0' & ctl' & cs1 & Hopen' & Hcalls & Hif & Hcase).
    assert (Hlast' : lastl = List.last (fst x :: map fst rest) 0%Z)
      by (rewrite Hlast; reflexivity).
    assert (Hidx' : NoDup (fst x :: map fst rest))
      by (apply NoDup_cons_iff in Hidx; tauto).
    assert (H0' : ~ In 0%Z (map fst rest)) by (intros Hin; apply H0; cbn; auto).
    assert (Htail : (st3 <- (if Z.eqb (fst x) lastl
                             then score_and_broadcast intensity_of_region mid'
                             else Ok mid') ;;
                     iterrows intensity_of_region lastl rest st3) = Ok st').
    { rewrite Hif; exact H. }
    destruct Hcase as [(Esame & -> & -> & -> & ->)
                      |(Esame & p & Hp & -> & -> & -> & ->)].
    + destruct (IH mid' st' pre c0 (ctl ++ [x]) (fst x) Hopen') as (out & cs & Hdf & Hc & Hruns);
        auto.
      { cbn in Hnd |- *; rewrite ?map_app; cbn.
        rewrite <- ?app_assoc; cbn; exact Hnd. }
      exists out, cs; split; [exact Hdf|]; split.
      * rewrite Hc, Hcalls, app_nil_r; reflexivity.
      * cbn [app] in Hruns |- *; rewrite <- app_assoc in Hruns; exact Hruns.
    + destruct (IH mid' st' (pre ++ scored p (c0 :: ctl)) x [] (fst x) Hopen')
        as (out & cs & Hdf & Hc & Hruns); auto.
      { rewrite map_app, map_label_scored, <- app_assoc; exact Hnd. }
      eexists (scored p (c0 :: ctl) ++ out), (_ :: cs); split; [|split].
      * rewrite Hdf, <- app_assoc; reflexivity.
      * rewrite Hc, Hcalls, <- app_assoc; reflexivity.
      * apply Runs_cons; auto.
        destruct Hopen as (_ & _ & _ & _ & Hall); exact Hall.
Qed.

(** A successful run of [choose_region] on a table with distinct labels
    scores the table run by run. *)
Lemma choose_region_run_runs (df : Frame) (st : locals pval) :
  NoDup (map fst df) ->
  choose_region_run intensity_of_region df = Ok st ->
  Runs intensity_of_region df (df_with_value st) (calls st).
Proof.
  intros Hnd; unfold choose_region_run.
  destruct df as [|x rest]; cbn [iterrows].
  - intros H; injection H as <-; constructor.
  - set (lastl := List.last (map fst (x :: rest)) 0%Z).
    set (st0 := @mkLocals pval None [] [] (unscored (x :: rest)) []).
    intros H.
    destruct (Z.eqb_spec (fst x) 0) as [E0|N0].
    2:{ exfalso; revert H; unfold loop_body, st0; cbn.
        destruct (Z.eqb_spec (fst x) 0); [contradiction|discriminate]. }
    set (mid := @mkLocals pval (Some (main_coords (snd x))) [small_coords (snd x)]
                         [fst x] (@unscored pval (x :: rest)) []).
    assert (Hbody : loop_body intensity_of_region lastl st0 x
                    = if Z.eqb (fst x) lastl
                      then score_and_broadcast intensity_of_region mid else Ok mid).
    { unfold loop_body, st0; cbn.
      destruct (Z.eqb_spec (fst x) 0); [|contradiction].
      cbn [main_tad_coords]; rewrite coords_eqb_refl; reflexivity. }
    unfold st0, unscored in Hbody; rewrite Hbody in H.
    assert (Hopen : open_group mid [] x [] rest).
    { unfold open_group, mid; cbn; auto. }
    assert (Hnd1 : NoDup (map label (@nil (ARow pval)) ++ map fst [x] ++ map fst rest))
      by exact Hnd.
    assert (H0 : ~ In 0%Z (map fst rest)).
    { cbn in Hnd; apply NoDup_cons_iff in Hnd; rewrite E0 in Hnd; tauto. }
    destruct (iterrows_runs lastl rest mid st [] x [] (fst x) Hopen Hnd1 H0 Hnd eq_refl H)
      as (out & cs & Hdf & Hc & Hruns).
    cbn [app] in Hdf, Hruns; rewrite Hdf, Hc; exact Hruns.
Qed.
End Loop.

(** ** Runs and groups *)

Lemma same_group_refl (a : Row) : same_group a a = true.
Proof. apply coords_eqb_refl. Qed.

Lemma same_group_sym (a b : Row) : same_group a b = same_group b a.
Proof. apply coords_eqb_sym. Qed.

Lemma same_group_congr (a b c : Row) :
  same_group a b = true -> same_group a c = same_group b c.
Proof. apply coords_eqb_congr. Qed.

Lemma filter_all {A : Type} (f : A -> bool) (l : list A) :
  (forall x, In x l -> f x = true) -> filter f l = l.
Proof.
  induction l as [|a l IH]; intros H; cbn; [reflexivity|].
  rewrite (H a) by (cbn; auto); rewrite IH; [reflexivity|].
  intros x Hx; apply H; cbn; auto.
Qed.

Lemma filter_none {A : Type} (f : A -> bool) (l : list A) :
  (forall x, In x l -> f x = false) -> filter f l = [].
Proof.
  induction l as [|a l IH]; intros H; cbn; [reflexivity|].
  rewrite (H a) by (cbn; auto); apply IH.
  intros x Hx; apply H; cbn; auto.
Qed.

Lemma drop_group_run (hd : Row) (tl rest : Frame) :
  Forall (fun y => same_group hd (snd y) = true) tl ->
  match rest with
  | [] => True
  | y :: _ => same_group hd (snd y) = false
  end ->
  drop_group hd (tl ++ rest) = rest.
Proof.
  induction 1 as [|y tl Hy _ IH]; intros Hrest; cbn [app drop_group].
  - destruct rest as [|y rest]; [reflexivity|]; cbn [drop_group]; rewrite Hrest; reflexivity.
  - rewrite Hy; apply IH; exact Hrest.
Qed.

Lemma contiguous_app_r (l1 l2 : Frame) :
  contiguous (l1 ++ l2) = true -> contiguous l2 = true.
Proof.
  induction l1 as [|x l1 IH]; cbn [app contiguous]; [auto|].
  intros H; apply andb_true_iff in H; tauto.
Qed.

(** In a table with consecutive groups, no row after a maximal run is in
    the group of the run. *)
Lemma contiguous_run (hd : Z * Row) (tl rest : Frame) :
  Forall (fun y => same_group (snd hd) (snd y) = true) tl ->
  match rest with
  | [] => True
  | y :: _ => same_group (snd hd) (snd y) = false
  end ->
  contiguous ((hd :: tl) ++ rest) = true ->
  (forall z, In z rest -> same_group (snd hd) (snd z) = false)
  /\ contiguous rest = true.
Proof.
  intros Hall Hrest H; cbn [app contiguous] in H.
  apply andb_true_iff in H; destruct H as [H1 H2].
  rewrite drop_group_run in H1 by assumption.
  split; [|apply (contiguous_app_r tl); exact H2].
  intros z Hz; rewrite forallb_forall in H1.
  apply negb_true_iff; apply H1; exact Hz.
Qed.

Section Groups.
Variable pval : Type.
Variable intensity_of_region : string * Q * Q -> list (Q * Q) -> res pval.

Lemma Runs_rows df (out : list (ARow pval)) cs :
  Runs intensity_of_region df out cs ->
  map (fun x => (label x, row x)) out = df.
Proof.
  induction 1 as [|hd tl rest p out cs _ _ _ _ IH]; [reflexivity|].
  rewrite map_app, IH; f_equal.
  unfold scored; rewrite map_map; cbn.
  destruct hd; cbn; f_equal.
  rewrite <- (map_id tl) at 2; apply map_ext; intros []; reflexivity.
Qed.

Lemma Runs_calls df (out : list (ARow pval)) cs :
  Runs intensity_of_region df out cs ->
  forall c, In c cs -> exists z, In z df /\ fst c = main_coords (snd z).
Proof.
  induction 1 as [|hd tl rest p out cs _ _ _ _ IH]; intros c Hc; [destruct Hc|].
  destruct Hc as [<-|Hc].
  - exists hd; cbn; auto.
  - destruct (IH c Hc) as (z & Hz & E); exists z; split; [|exact E].
    apply in_or_app; right; exact Hz.
Qed.

(** In a table with consecutive groups every group is one run: it is
    scored once, on the small TADs of all its rows, and each of its rows
    carries the value. *)
Lemma Runs_groups df (out : list (ARow pval)) cs :
  Runs intensity_of_region df out cs ->
  contiguous df = true ->
  forall x, In x out ->
    exists k p,
      filter (fun c => coords_eqb (fst c) (main_coords (row x))) cs
      = [(k, group_smalls df (row x))]
      /\ create_diff_matrix intensity_of_region k (group_smalls df (row x)) = Ok p
      /\ pvalue x = Some p.
Proof.
  induction 1 as [|hd tl rest p out cs Hall Hrest Hp Hruns IH]; intros Hcont x Hx;
    [destruct Hx|].
  destruct (contiguous_run hd tl rest Hall Hrest Hcont) as [Hfar Hcont'].
  assert (Hnear : forall y, In y (hd :: tl) -> same_group (snd hd) (snd y) = true).
  { intros y [<-|Hy]; [apply same_group_refl|].
    rewrite Forall_forall in Hall; apply Hall; exact Hy. }
  apply in_app_or in Hx; destruct Hx as [Hx|Hx].
  - unfold scored in Hx; apply in_map_iff in Hx; destruct Hx as (y & <- & Hy); cbn [row pvalue].
    assert (Hsmalls : group_smalls ((hd :: tl) ++ rest) (snd y)
                      = map (fun y => small_coords (snd y)) (hd :: tl)).
    { unfold group_smalls; rewrite filter_app, filter_all, filter_none, app_nil_r; auto.
      - intros z Hz. rewrite <- (same_group_congr (snd hd)); auto.
      - intros z Hz. rewrite <- (same_group_congr (snd hd)); auto. }
    exists (main_coords (snd hd)), p; rewrite Hsmalls; split; [|auto].
    cbn [filter fst]. fold (same_group (snd hd) (snd y)); rewrite (Hnear y Hy).
    f_equal; apply filter_none; intros c Hc.
    destruct (Runs_calls _ _ _ Hruns c Hc) as (z & Hz & ->).
    fold (same_group (snd z) (snd y)).
    rewrite same_group_sym, <- (same_group_congr (snd hd)); auto.
  - assert (Hz : In (label x, row x) rest).
    { rewrite <- (Runs_rows _ _ _ Hruns); apply (in_map (fun x => (label x, row x))); exact Hx. }
    pose proof (Hfar _ Hz) as Hx'; cbn [snd] in Hx'.
    destruct (IH Hcont' x Hx) as (k & p' & Hf & Hp' & Hpv).
    assert (Hsmalls : group_smalls ((hd :: tl) ++ rest) (row x) = group_smalls rest (row x)).
    { unfold group_smalls; rewrite filter_app, filter_none; [reflexivity|].
      intros y Hy; rewrite same_group_sym, <- (same_group_congr (snd hd)); auto. }
    exists k, p'; rewrite Hsmalls; split; [|auto].
    cbn [filter fst]. fold (same_group (snd hd) (row x)); rewrite Hx'; exact Hf.
Qed.
End Groups.

(** C4 fails as stated.  The first TAD table lists the TAD [0, 300] twice,
    with another TAD between the two occurrences; [find_split] returns six
    rows, labelled 0 to 5, in which the group of [0, 300] forms two runs.
    [choose_region] calls [create_diff_matrix] three times, twice for that
    group: its p-value is not computed once. *)
Lemma choose_region_scores_a_group_twice :
  let df :=
    find_split
      [Tad.mk "chr1" 0 300; Tad.mk "chr1" 10 400; Tad.mk "chr1" 0 300]
      [Tad.mk "chr1" 0 100; Tad.mk "chr1" 150 200]
      default_binsize default_length_flexibility in
  exists st,
    choose_region_run (fun _ _ => Ok (1 # 2)) df = Ok st
    /\ map fst df = [0; 1; 2; 3; 4; 5]%Z
    /\ contiguous df = false
    /\ map (fun c => (snd (fst (fst c)), snd (fst c), snd c)) (calls st)
       = [(-300000 # 2, 300600 # 2, [(0, 100); (150, 200)]);
          (-299980 # 2, 300800 # 2, [(0, 100); (150, 200)]);
          (-300000 # 2, 300600 # 2, [(0, 100); (150, 200)])].
Proof.
  eexists; split; [vm_compute; reflexivity|].
  split; [|split]; vm_compute; reflexivity.
Qed.

(** C4, amended.  Take a table with distinct index labels in which the
    rows of every (chrom, start_tad1, end_tad1) group are consecutive, and
    on which [choose_region] returns.  The returned table has the rows of
    the input, in order, each with its label.  For every row,
    [create_diff_matrix] was called exactly once for the group of the row,
    with the small TADs of all the rows of the group, and the row carries
    the value of that call; hence two rows of one group carry the same
    p-value. *)
Theorem choose_region_scores_each_group_once (pval : Type)
    (intensity_of_region : string * Q * Q -> list (Q * Q) -> res pval)
    (df : Frame) (st : locals pval) :
  NoDup (map fst df) ->
  contiguous df = true ->
  choose_region_run intensity_of_region df = Ok st ->
  choose_region intensity_of_region df = Ok (df_with_value st)
  /\ map (fun x => (label x, row x)) (df_with_value st) = df
  /\ (forall x, In x (df_with_value st) ->
        exists k p,
          filter (fun c => coords_eqb (fst c) (main_coords (row x))) (calls st)
          = [(k, group_smalls df (row x))]
          /\ create_diff_matrix intensity_of_region k (group_smalls df (row x)) = Ok p
          /\ pvalue x = Some p)
  /\ (forall x y, In x (df_with_value st) -> In y (df_with_value st) ->
        same_group (row x) (row y) = true -> pvalue x = pvalue y).
Proof.
  intros Hnd Hcont Hrun.
  pose proof (choose_region_run_runs pval intensity_of_region df st Hnd Hrun) as Hruns.
  pose proof (Runs_groups pval intensity_of_region _ _ _ Hruns Hcont) as Hgroups.
  split; [unfold choose_region; rewrite Hrun; reflexivity|].
  split; [apply (Runs_rows pval intensity_of_region _ _ _ Hruns)|].
  split; [exact Hgroups|].
  intros x y Hx Hy Hsame.
  destruct (Hgroups x Hx) as (k & p & Hf & Hp & ->).
  destruct (Hgroups y Hy) as (k' & p' & Hf' & Hp' & ->).
  assert (E : filter (fun c => coords_eqb (fst c) (main_coords (row x))) (calls st)
              = filter (fun c => coords_eqb (fst c) (main_coords (row y))) (calls st)).
  { apply filter_ext; intros c.
    rewrite (coords_eqb_sym (fst c)), (coords_eqb_sym (fst c)).
    apply coords_eqb_congr; exact Hsame. }
  rewrite Hf, Hf' in E; injection E as -> E.
  rewrite E in Hp; congruence.
Qed.

Lemma choose_region_scores_each_group_once_witness :
  let df :=
    find_split [Tad.mk "chr1" 0 300] [Tad.mk "chr1" 0 140; Tad.mk "chr1" 150 300]
               default_binsize default_length_flexibility in
  exists st,
    choose_region_run (fun _ _ => Ok (1 # 2)) df = Ok st
    /\ map (fun x => (label x, pvalue x)) (df_with_value st)
       = [(0%Z, Some (1 # 2)); (1%Z, Some (1 # 2))]
    /\ forall x y, In x (df_with_value st) -> In y (df_with_value st) ->
         same_group (row x) (row y) = true -> pvalue x = pvalue y.
Proof.
  eexists; split; [vm_compute; reflexivity|].
  split; [reflexivity|].
  refine (proj2 (proj2 (proj2
    (choose_region_scores_each_group_once Q (fun _ _ => Ok (1 # 2))
       (find_split [Tad.mk "chr1" 0 300] [Tad.mk "chr1" 0 140; Tad.mk "chr1" 150 300]
                   default_binsize default_length_flexibility) _ _ _ _)))).
  - vm_compute; repeat constructor; cbn; intuition discriminate.
  - vm_compute; reflexivity.
  - vm_compute; reflexivity.
Defined.

(** ** Counting events *)

Lemma pair_eqb_canon (a b : Q * Q) : pair_eqb a b = true <-> canon a = canon b.
Proof.
  unfold pair_eqb, canon; rewrite andb_true_iff, !Qeq_bool_iff; split.
  - intros [H1 H2]; f_equal; apply Qred_complete; assumption.
  - intros H; injection H as H1 H2; split; apply Qred_eq_iff; assumption.
Qed.

Lemma existsb_pair_eqb (x : Q * Q) (seen : list (Q * Q)) :
  existsb (pair_eqb x) seen = true <-> In (canon x) (map canon seen).
Proof.
  rewrite existsb_exists, in_map_iff; split.
  - intros (y & Hy & E); exists y; split; [symmetry; apply pair_eqb_canon; exact E|exact Hy].
  - intros (y & E & Hy); exists y; split; [exact Hy|apply pair_eqb_canon; auto].
Qed.

Lemma drop_duplicates_acc_In (l : list (Q * Q)) :
  forall seen k,
    In k (map canon (drop_duplicates_acc seen l))
    <-> In k (map canon l) /\ ~ In k (map canon seen).
Proof.
  induction l as [|x t IH]; intros seen k; cbn; [tauto|].
  destruct (existsb (pair_eqb x) seen) eqn:E.
  - apply existsb_pair_eqb in E; rewrite IH; split.
    + intros [H1 H2]; auto.
    + intros [[<-|H1] H2]; [contradiction|auto].
  - assert (Hx : ~ In (canon x) (map canon seen))
      by (rewrite <- existsb_pair_eqb; congruence).
    cbn; rewrite IH; cbn; split.
    + intros [<-|[H1 H2]]; auto.
    + intros [[<-|H1] H2]; auto.
      assert (D : {canon x = k} + {canon x <> k}).
      { repeat decide equality. }
      destruct D as [->|Hne]; auto.
      right; split; auto; intros [?|?]; auto.
Qed.

Lemma drop_duplicates_acc_NoDup (l : list (Q * Q)) :
  forall seen, NoDup (map canon (drop_duplicates_acc seen l)).
Proof.
  induction l as [|x t IH]; intros seen; cbn; [constructor|].
  destruct (existsb (pair_eqb x) seen); auto.
  cbn; constructor; auto.
  rewrite drop_duplicates_acc_In; cbn; tauto.
Qed.

(** [count_events] is the number of distinct (start_tad1, end_tad1) pairs
    of the table. *)
Lemma count_events_distinct {pval : Type} (final_table : list (ARow pval)) :
  distinct_count (map group_key final_table) (count_events final_table).
Proof.
  unfold count_events.
  set (l := map (fun x => (start_tad1 (row x), end_tad1 (row x))) final_table).
  assert (E : map group_key final_table = map canon l)
    by (unfold l; rewrite map_map; reflexivity).
  rewrite E.
  exists (map canon (drop_duplicates l)); split; [split|apply length_map].
  - apply drop_duplicates_acc_NoDup.
  - intros k; unfold drop_duplicates; rewrite drop_duplicates_acc_In; cbn; tauto.
Qed.

(** ** The entry point *)

(** C1 fails as stated.  On this input the run completes with one split
    and no merge, and the call returns [None]: the pair is written to
    standard output by the decorator, not returned. *)
Lemma main_returns_none :
  let args :=
    mkArguments [Tad.mk "chr1" 0 300] [Tad.mk "chr1" 0 140; Tad.mk "chr1" 150 300] 100 in
  main_split_merge_detection (fun _ _ => Ok (1 # 2)) args
  = (None, Stdout_result (1%nat, 0%nat)).
Proof. vm_compute; reflexivity. Qed.

(** C1, amended.  A call of [main_split_merge_detection] returns no value.
    When the run completes, the pair it writes to standard output has, as
    first element, the number of distinct (start_tad1, end_tad1) pairs of
    the final split table and, as second element, the same number for the
    final merge table: distinct pairs are counted, not rows. *)
Theorem main_prints_distinct_group_counts (pval : Type)
    (intensity_of_region : string * Q * Q -> list (Q * Q) -> res pval)
    (args : arguments) :
  fst (main_split_merge_detection intensity_of_region args) = None
  /\ forall counts,
       snd (main_split_merge_detection intensity_of_region args) = Stdout_result counts ->
       exists s m,
         detect intensity_of_region "split" (tads_1 args) (tads_2 args) (binsize_arg args)
         = Ok s
         /\ detect intensity_of_region "merge" (tads_1 args) (tads_2 args) (binsize_arg args)
            = Ok m
         /\ distinct_count (map group_key (fst s)) (fst counts)
         /\ distinct_count (map group_key (fst m)) (snd counts).
Proof.
  unfold main_split_merge_detection, wrapper_print, main_split_merge_detection_body.
  destruct (detect intensity_of_region "split" _ _ _) as [s|e]; cbn [bind fst snd];
    [|split; [reflexivity|discriminate]].
  destruct (detect intensity_of_region "merge" _ _ _) as [m|e]; cbn [bind fst snd];
    [|split; [reflexivity|discriminate]].
  split; [reflexivity|].
  intros counts H; injection H as <-.
  exists s, m; cbn [fst snd].
  split; [reflexivity|]; split; [reflexivity|].
  split; apply count_events_distinct.
Qed.

Lemma main_prints_distinct_group_counts_witness :
  let args :=
    mkArguments [Tad.mk "chr1" 0 300] [Tad.mk "chr1" 0 140; Tad.mk "chr1" 150 300] 100 in
  exists s m,
    detect (fun _ _ => Ok (1 # 2)) "split" (tads_1 args) (tads_2 args) (binsize_arg args)
    = Ok s
    /\ detect (fun _ _ => Ok (1 # 2)) "merge" (tads_1 args) (tads_2 args) (binsize_arg args)
       = Ok m
    /\ distinct_count (map group_key (fst s)) 1
    /\ distinct_count (map group_key (fst m)) 0.
Proof.
  exact (proj2 (main_prints_distinct_group_counts Q (fun _ _ => Ok (1 # 2))
                  (mkArguments [Tad.mk "chr1" 0 300]
                     [Tad.mk "chr1" 0 140; Tad.mk "chr1" 150 300] 100))
               (1%nat, 0%nat) eq_refl).
Defined.

(** * Further properties *)

(** ** Structure of [find_split] *)

Lemma merge_on_chrom_In (r : Row) (left right : list Reg.t) :
  In r (merge_on_chrom left right) <->
  exists a b, In a left /\ In b right /\ Reg.chrom a = Reg.chrom b /\ r = merge_row a b.
Proof.
  unfold merge_on_chrom; rewrite in_flat_map; split.
  - intros (a & Ha & Hr); apply in_map_iff in Hr; destruct Hr as (b & <- & Hb).
    apply filter_In in Hb; destruct Hb as [Hb E]; apply String.eqb_eq in E.
    exists a, b; auto.
  - intros (a & b & Ha & Hb & E & ->); exists a; split; [exact Ha|].
    apply in_map, filter_In; split; [exact Hb|]; apply String.eqb_eq; exact E.
Qed.

Lemma length_merge_on_chrom (left right : list Reg.t) :
  (List.length (merge_on_chrom left right) <= List.length left * List.length right)%nat.
Proof.
  induction left as [|a left IH]; [cbn; lia|].
  unfold merge_on_chrom in *; cbn [flat_map List.length].
  rewrite length_app, length_map, Nat.mul_succ_l.
  pose proof (filter_length_le (fun b => String.eqb (Reg.chrom a) (Reg.chrom b)) right).
  lia.
Qed.

Lemma range_index_fst (rows : list Row) :
  map fst (range_index rows) = map Z.of_nat (seq 0 (List.length rows)).
Proof.
  unfold range_index; generalize 0%nat.
  induction rows as [|r rows IH]; intros n; cbn; [reflexivity|].
  rewrite IH; reflexivity.
Qed.

Lemma range_index_snd (rows : list Row) : map snd (range_index rows) = rows.
Proof.
  unfold range_index; generalize 0%nat.
  induction rows as [|r rows IH]; intros n; cbn; [reflexivity|].
  rewrite IH; reflexivity.
Qed.

Lemma map_filter_snd (f : Row -> bool) (df : Frame) :
  map snd (filter (fun x => f (snd x)) df) = filter f (map snd df).
Proof.
  induction df as [|x df IH]; cbn; [reflexivity|].
  destruct (f (snd x)); cbn; rewrite IH; reflexivity.
Qed.

Lemma find_split_stages (tad1 tad2 : list Tad.t) (binsize : Z) (flex : Q) :
  find_split tad1 tad2 binsize flex
  = filter (fun x => isin_start_tad1 (passing tad1 tad2 binsize flex) (snd x))
           (duplicates tad1 tad2 binsize flex).
Proof. reflexivity. Qed.

Lemma find_split_In_duplicates tad1 tad2 binsize flex x :
  In x (find_split tad1 tad2 binsize flex) -> In x (duplicates tad1 tad2 binsize flex).
Proof. rewrite find_split_stages; intros H; apply filter_In in H; tauto. Qed.

Lemma duplicates_In_pairwise tad1 tad2 binsize flex x :
  In x (duplicates tad1 tad2 binsize flex) -> In x (pairwise tad1 tad2 binsize flex).
Proof. unfold duplicates; intros H; apply filter_In in H; tauto. Qed.

Lemma pairwise_In tad1 tad2 binsize flex x :
  In x (pairwise tad1 tad2 binsize flex) ->
  contained (snd x) = true
  /\ exists a b,
       In a tad1 /\ In b tad2 /\ Tad.chrom a = Tad.chrom b
       /\ snd x = merge_row (modify_tad binsize flex a) (add_size b).
Proof.
  unfold pairwise; intros H; apply filter_In in H; destruct H as [H Hc].
  split; [exact Hc|].
  apply (in_map snd) in H; unfold merged in H; rewrite range_index_snd in H.
  apply merge_on_chrom_In in H; destruct H as (w & s & Hw & Hs & E & Hx).
  unfold modify_tads_map_by_condition in Hw; apply in_map_iff in Hw.
  unfold add_size_column in Hs; apply in_map_iff in Hs.
  destruct Hw as (a & <- & Ha), Hs as (b & <- & Hb).
  exists a, b; auto.
Qed.

(** X1. Every row that [find_split] returns pairs a TAD of the first table
    with a TAD of the second table on the same chromosome, and the pair
    passes the three pairwise tests in the original coordinates: the small
    TAD starts no more than 1.5 bins before the main TAD, ends no more
    than 1.5 bins after it, and is no longer than the main TAD times the
    flexibility factor. *)
Theorem find_split_sound (tad1 tad2 : list Tad.t) (binsize : Z) (flex : Q) (x : Z * Row) :
  In x (find_split tad1 tad2 binsize flex) ->
  exists a b,
    In a tad1 /\ In b tad2 /\ Tad.chrom a = Tad.chrom b
    /\ snd x = merge_row (modify_tad binsize flex a) (add_size b)
    /\ inject_Z (Tad.start a) - BINSIZE_COEF * inject_Z binsize <= inject_Z (Tad.start b)
    /\ inject_Z (Tad.end_ b) <= inject_Z (Tad.end_ a) + BINSIZE_COEF * inject_Z binsize
    /\ inject_Z (Tad.end_ b - Tad.start b) <= inject_Z (Tad.end_ a - Tad.start a) * flex.
Proof.
  intros H; apply find_split_In_duplicates, duplicates_In_pairwise, pairwise_In in H.
  destruct H as (Hc & a & b & Ha & Hb & E & Hx).
  exists a, b; repeat (split; [assumption|]).
  rewrite Hx in Hc; unfold contained in Hc; cbn in Hc.
  apply andb_true_iff in Hc; destruct Hc as [Hc H3].
  apply andb_true_iff in Hc; destruct Hc as [H1 H2].
  apply Qle_bool_iff in H1, H2, H3; auto.
Qed.

Lemma find_split_sound_witness :
  exists a b,
    In a example_tad1 /\ In b example_tad2 /\ Tad.chrom a = Tad.chrom b
    /\ snd example_row = merge_row (modify_tad 100000 (11 # 10) a) (add_size b)
    /\ inject_Z (Tad.start a) - BINSIZE_COEF * inject_Z 100000 <= inject_Z (Tad.start b)
    /\ inject_Z (Tad.end_ b) <= inject_Z (Tad.end_ a) + BINSIZE_COEF * inject_Z 100000
    /\ inject_Z (Tad.end_ b - Tad.start b) <= inject_Z (Tad.end_ a - Tad.start a) * (11 # 10).
Proof.
  apply (find_split_sound example_tad1 example_tad2 100000 (11 # 10) example_row).
  vm_compute; left; reflexivity.
Defined.

(** ** Labels of the candidate table *)

Lemma StronglySorted_map_of_nat_seq (n a : nat) :
  StronglySorted Z.lt (map Z.of_nat (seq a n)).
Proof.
  revert a; induction n as [|n IH]; intros a; cbn; constructor; [apply IH|].
  apply Forall_forall; intros z Hz; apply in_map_iff in Hz.
  destruct Hz as (k & <- & Hk); apply in_seq in Hk; lia.
Qed.

Lemma StronglySorted_filter_fst {B : Type} (R : Z -> Z -> Prop) (f : Z * B -> bool)
    (l : list (Z * B)) :
  StronglySorted R (map fst l) -> StronglySorted R (map fst (filter f l)).
Proof.
  induction l as [|x l IH]; cbn; intros H; [constructor|].
  apply StronglySorted_inv in H; destruct H as [H1 H2].
  destruct (f x); cbn; [constructor|]; auto.
  rewrite Forall_forall in H2 |- *; intros z Hz; apply H2.
  apply in_map_iff in Hz; destruct Hz as (y & <- & Hy).
  apply filter_In in Hy; apply in_map; tauto.
Qed.

Lemma StronglySorted_lt_NoDup (l : list Z) : StronglySorted Z.lt l -> NoDup l.
Proof.
  induction 1 as [|a l _ IH H]; constructor; auto.
  intros Hin; rewrite Forall_forall in H; specialize (H a Hin); lia.
Qed.

Lemma find_split_labels_sorted (tad1 tad2 : list Tad.t) (binsize : Z) (flex : Q) :
  StronglySorted Z.lt (map fst (find_split tad1 tad2 binsize flex)).
Proof.
  rewrite find_split_stages; unfold duplicates, pairwise, merged.
  do 3 apply StronglySorted_filter_fst.
  rewrite range_index_fst; apply StronglySorted_map_of_nat_seq.
Qed.

(** X2. The index labels of the table that [find_split] returns are
    strictly increasing, hence distinct, and each is a position of the
    merged table: at least 0 and less than the product of the sizes of the
    two input tables. *)
Theorem find_split_labels (tad1 tad2 : list Tad.t) (binsize : Z) (flex : Q) :
  StronglySorted Z.lt (map fst (find_split tad1 tad2 binsize flex))
  /\ NoDup (map fst (find_split tad1 tad2 binsize flex))
  /\ forall x, In x (find_split tad1 tad2 binsize flex) ->
       (0 <= fst x < Z.of_nat (List.length tad1 * List.length tad2))%Z.
Proof.
  split; [apply find_split_labels_sorted|].
  split; [apply StronglySorted_lt_NoDup, find_split_labels_sorted|].
  intros x Hx.
  apply find_split_In_duplicates, duplicates_In_pairwise in Hx.
  unfold pairwise in Hx; apply filter_In in Hx; destruct Hx as [Hx _].
  apply (in_map fst) in Hx; unfold merged in Hx; rewrite range_index_fst in Hx.
  apply in_map_iff in Hx; destruct Hx as (k & <- & Hk); apply in_seq in Hk.
  pose proof (length_merge_on_chrom
                (modify_tads_map_by_condition tad1 binsize flex) (add_size_column tad2)) as L.
  unfold modify_tads_map_by_condition, add_size_column in L, Hk.
  rewrite !length_map in L; lia.
Qed.

Lemma find_split_labels_witness :
  (0 <= fst example_row < Z.of_nat (List.length example_tad1 * List.length example_tad2))%Z.
Proof.
  apply (proj2 (proj2 (find_split_labels example_tad1 example_tad2 100000 (11 # 10)))).
  vm_compute; left; reflexivity.
Defined.

(** ** Rows that share their [start_tad1] *)

Lemma Qeq_bool_comm (a b : Q) : Qeq_bool a b = Qeq_bool b a.
Proof.
  destruct (Qeq_bool a b) eqn:E1, (Qeq_bool b a) eqn:E2; auto.
  - apply Qeq_bool_sym in E1; congruence.
  - apply Qeq_bool_sym in E2; congruence.
Qed.

Lemma Qeq_bool_congr (a b c : Q) :
  Qeq_bool a b = true -> Qeq_bool a c = Qeq_bool b c.
Proof.
  intros H.
  destruct (Qeq_bool a c) eqn:E1, (Qeq_bool b c) eqn:E2; auto.
  - apply Qeq_bool_sym in H; rewrite (Qeq_bool_trans _ _ _ H E1) in E2; discriminate.
  - rewrite (Qeq_bool_trans _ _ _ H E2) in E1; discriminate.
Qed.

Lemma filter_absorb {A : Type} (p q : A -> bool) (l : list A) :
  (forall y, In y l -> q y = true -> p y = true) ->
  filter q (filter p l) = filter q l.
Proof.
  induction l as [|a l IH]; intros H; cbn; [reflexivity|].
  assert (IH' : filter q (filter p l) = filter q l)
    by (apply IH; intros y Hy; apply H; cbn; auto).
  destruct (p a) eqn:Ep; cbn.
  - rewrite IH'; reflexivity.
  - destruct (q a) eqn:Eq; [|exact IH'].
    rewrite (H a) in Ep; cbn; auto; discriminate.
Qed.

Lemma isin_start_tad1_congr (groups : list Row) (r r' : Row) :
  Qeq_bool (start_tad1 r) (start_tad1 r') = true ->
  isin_start_tad1 groups r = isin_start_tad1 groups r'.
Proof.
  intros H; unfold isin_start_tad1; induction groups as [|g groups IH]; cbn; [reflexivity|].
  rewrite (Qeq_bool_congr _ _ _ H), IH; reflexivity.
Qed.

Lemma count_start_tad1_congr (df : Frame) (s s' : Q) :
  Qeq_bool s s' = true -> count_start_tad1 df s = count_start_tad1 df s'.
Proof.
  intros H; unfold count_start_tad1; f_equal; apply filter_ext; intros y.
  rewrite (Qeq_bool_comm _ s), (Qeq_bool_comm _ s'); apply Qeq_bool_congr; exact H.
Qed.

(** The rows of the output with a given [start_tad1] are all the rows of
    the pairwise table with that [start_tad1], and there are at least two
    of them. *)
Lemma find_split_start_rows tad1 tad2 binsize flex x :
  In x (find_split tad1 tad2 binsize flex) ->
  filter (fun y => Qeq_bool (start_tad1 (snd y)) (start_tad1 (snd x)))
         (find_split tad1 tad2 binsize flex)
  = filter (fun y => Qeq_bool (start_tad1 (snd y)) (start_tad1 (snd x)))
           (pairwise tad1 tad2 binsize flex)
  /\ duplicated_start_tad1 (pairwise tad1 tad2 binsize flex) x = true.
Proof.
  intros Hx; rewrite find_split_stages in *.
  apply filter_In in Hx; destruct Hx as [Hx HP].
  unfold duplicates in *; apply filter_In in Hx; destruct Hx as [Hx HD].
  split; [|exact HD].
  rewrite filter_absorb, filter_absorb; [reflexivity| |].
  - intros y _ E; unfold duplicated_start_tad1 in *.
    rewrite (count_start_tad1_congr _ _ _ E); exact HD.
  - intros y _ E; rewrite (isin_start_tad1_congr _ _ _ E); exact HP.
Qed.

(** X3. In the table that [find_split] returns, the [start_tad1] of every
    row occurs on at least two rows: no row is alone with its
    [start_tad1]. *)
Theorem find_split_start_shared (tad1 tad2 : list Tad.t) (binsize : Z) (flex : Q)
    (x : Z * Row) :
  In x (find_split tad1 tad2 binsize flex) ->
  (2 <= count_start_tad1 (find_split tad1 tad2 binsize flex) (start_tad1 (snd x)))%nat.
Proof.
  intros Hx; destruct (find_split_start_rows _ _ _ _ _ Hx) as [E HD].
  unfold count_start_tad1 at 1; rewrite E.
  apply Nat.leb_le; exact HD.
Qed.

Lemma find_split_start_shared_witness :
  (2 <= count_start_tad1 (find_split example_tad1 example_tad2 100000 (11 # 10))
          (start_tad1 (snd example_row)))%nat.
Proof.
  apply (find_split_start_shared example_tad1 example_tad2 100000 (11 # 10) example_row).
  vm_compute; left; reflexivity.
Defined.

(** ** Tables in which no two main TADs share their start *)

Lemma NoDup_map_eq {A B : Type} (f : A -> B) (l : list A) (a b : A) :
  NoDup (map f l) -> In a l -> In b l -> f a = f b -> a = b.
Proof.
  induction l as [|c l IH]; cbn; intros Hnd Ha Hb E; [contradiction|].
  apply NoDup_cons_iff in Hnd; destruct Hnd as [Hc Hnd].
  destruct Ha as [->|Ha], Hb as [->|Hb]; auto.
  - exfalso; apply Hc; rewrite E; apply in_map; exact Hb.
  - exfalso; apply Hc; rewrite <- E; apply in_map; exact Ha.
Qed.

Lemma modify_tad_start_inj (binsize : Z) (flex : Q) (a a' : Tad.t) :
  Qeq_bool (Reg.start (modify_tad binsize flex a)) (Reg.start (modify_tad binsize flex a'))
  = true ->
  Tad.start a = Tad.start a'.
Proof.
  cbn; intros H; apply Qeq_bool_iff in H.
  unfold Qminus in H; apply -> Qplus_inj_r in H.
  apply inject_Z_injective; exact H.
Qed.

(** Two candidate pairs with the same [start_tad1] have the same main TAD. *)
Lemma same_start_same_main tad1 tad2 binsize flex x y :
  NoDup (map Tad.start tad1) ->
  In x (pairwise tad1 tad2 binsize flex) ->
  In y (pairwise tad1 tad2 binsize flex) ->
  Qeq_bool (start_tad1 (snd x)) (start_tad1 (snd y)) = true ->
  exists a bx by_,
    snd x = merge_row (modify_tad binsize flex a) bx
    /\ snd y = merge_row (modify_tad binsize flex a) by_.
Proof.
  intros Hnd Hx Hy E.
  apply pairwise_In in Hx, Hy.
  destruct Hx as (_ & a & bx & Ha & _ & _ & Hx), Hy as (_ & a' & by_ & Ha' & _ & _ & Hy).
  rewrite Hx, Hy in E; cbn [start_tad1 merge_row] in E.
  apply modify_tad_start_inj in E.
  assert (a = a') by (eapply NoDup_map_eq; eauto); subst a'.
  exists a, (add_size bx), (add_size by_); auto.
Qed.

Lemma same_group_start (r r' : Row) :
  same_group r r' = true -> Qeq_bool (start_tad1 r) (start_tad1 r') = true.
Proof.
  unfold same_group, coords_eqb, main_coords; intros H.
  apply andb_true_iff in H; destruct H as [H _].
  apply andb_true_iff in H; tauto.
Qed.

Lemma same_window_start (r r' : Row) :
  same_window r r' = true -> Qeq_bool (start_tad1 r) (start_tad1 r') = true.
Proof.
  unfold same_window; intros H.
  apply andb_true_iff in H; destruct H as [H _].
  apply andb_true_iff in H; destruct H as [H _].
  apply andb_true_iff in H; tauto.
Qed.

Lemma merge_row_same_group (w : Reg.t) (b b' : Reg.t) :
  same_group (merge_row w b) (merge_row w b') = true.
Proof.
  unfold same_group, coords_eqb, main_coords; cbn.
  rewrite String.eqb_refl, !Qeq_bool_refl; reflexivity.
Qed.

Lemma merge_row_same_window (w : Reg.t) (b b' : Reg.t) (r : Row) :
  same_window (merge_row w b) r = same_window (merge_row w b') r.
Proof. reflexivity. Qed.

(** Under that condition the group of a row of the output is the set of
    rows with its [start_tad1]. *)
Lemma find_split_group_rows tad1 tad2 binsize flex x :
  NoDup (map Tad.start tad1) ->
  In x (find_split tad1 tad2 binsize flex) ->
  filter (fun y => same_group (snd x) (snd y)) (find_split tad1 tad2 binsize flex)
  = filter (fun y => Qeq_bool (start_tad1 (snd y)) (start_tad1 (snd x)))
           (find_split tad1 tad2 binsize flex).
Proof.
  intros Hnd Hx; apply filter_ext_in; intros y Hy.
  destruct (Qeq_bool (start_tad1 (snd y)) (start_tad1 (snd x))) eqn:E.
  - apply find_split_In_duplicates, duplicates_In_pairwise in Hx, Hy.
    rewrite Qeq_bool_comm in E.
    destruct (same_start_same_main _ _ _ _ _ _ Hnd Hx Hy E) as (a & bx & by_ & -> & ->).
    apply merge_row_same_group.
  - destruct (same_group (snd x) (snd y)) eqn:Es; [|reflexivity].
    apply same_group_start in Es; rewrite Qeq_bool_comm in Es; congruence.
Qed.

(** X4. When no two TADs of the first table start at the same position,
    every group of the table that [find_split] returns (the rows with the
    same chromosome, start and end of the main TAD) has at least two
    rows. *)
Theorem find_split_groups_of_two (tad1 tad2 : list Tad.t) (binsize : Z) (flex : Q)
    (x : Z * Row) :
  NoDup (map Tad.start tad1) ->
  In x (find_split tad1 tad2 binsize flex) ->
  (2 <= List.length
          (filter (fun y => same_group (snd x) (snd y))
                  (find_split tad1 tad2 binsize flex)))%nat.
Proof.
  intros Hnd Hx; rewrite (find_split_group_rows _ _ _ _ _ Hnd Hx).
  destruct (find_split_start_rows _ _ _ _ _ Hx) as [E HD].
  rewrite E; apply Nat.leb_le; exact HD.
Qed.

Lemma find_split_groups_of_two_witness :
  (2 <= List.length
          (filter (fun y => same_group (snd example_row) (snd y))
                  (find_split example_tad1 example_tad2 100000 (11 # 10))))%nat.
Proof.
  apply (find_split_groups_of_two example_tad1 example_tad2 100000 (11 # 10) example_row).
  - repeat constructor; cbn; tauto.
  - vm_compute; left; reflexivity.
Defined.

Lemma group_heads_In (rows : list Row) :
  forall seen h, In h (group_heads seen rows) -> In h rows.
Proof.
  induction rows as [|r rows IH]; intros seen h; cbn; [auto|].
  destruct (existsb (same_window r) seen).
  - intros H; right; eapply IH; exact H.
  - intros [<-|H]; [auto|right; eapply IH; exact H].
Qed.

(** X5. When no two TADs of the first table start at the same position,
    the small TADs of every group that [find_split] returns fit into the
    widened main TAD: the sum of their sizes, taken over the rows of the
    output in the same chromosome, start, end and size of the main TAD,
    is at most that size. *)
Theorem find_split_groups_pass (tad1 tad2 : list Tad.t) (binsize : Z) (flex : Q)
    (x : Z * Row) :
  NoDup (map Tad.start tad1) ->
  In x (find_split tad1 tad2 binsize flex) ->
  fold_left Qplus
    (map size_tad2
       (filter (same_window (snd x)) (map snd (find_split tad1 tad2 binsize flex)))) 0
  <= size_tad1 (snd x).
Proof.
  intros Hnd Hx.
  pose proof Hx as Hx2; apply find_split_In_duplicates in Hx2.
  pose proof Hx2 as Hx1; apply duplicates_In_pairwise in Hx1.
  rewrite find_split_stages in Hx |- *.
  apply filter_In in Hx; destruct Hx as [_ HP].
  rewrite map_filter_snd with (f := isin_start_tad1 (passing tad1 tad2 binsize flex)).
  rewrite filter_absorb.
  2:{ intros r _ Er; apply same_window_start in Er.
      rewrite <- (isin_start_tad1_congr _ _ _ Er); exact HP. }
  unfold isin_start_tad1 in HP; apply existsb_exists in HP.
  destruct HP as (g & Hg & Eg).
  unfold passing in Hg; apply filter_In in Hg; destruct Hg as [Hg Hpass].
  unfold groupby_agg in Hg; apply in_map_iff in Hg; destruct Hg as (h & <- & Hh).
  apply group_heads_In in Hh; apply in_map_iff in Hh; destruct Hh as (z & <- & Hz).
  cbn [start_tad1 aggregate] in Eg.
  pose proof (duplicates_In_pairwise _ _ _ _ _ Hz) as Hz1.
  destruct (same_start_same_main _ _ _ _ _ _ Hnd Hx1 Hz1 Eg) as (a & bx & bz & Ex & Ez).
  apply Qle_bool_iff in Hpass; cbn [size_tad1 size_tad2 aggregate] in Hpass.
  rewrite Ex; rewrite Ez in Hpass.
  rewrite (filter_ext _ _ (merge_row_same_window _ bx bz)); exact Hpass.
Qed.

Lemma find_split_groups_pass_witness :
  fold_left Qplus
    (map size_tad2
       (filter (same_window (snd example_row))
          (map snd (find_split example_tad1 example_tad2 100000 (11 # 10))))) 0
  <= size_tad1 (snd example_row).
Proof.
  apply (find_split_groups_pass example_tad1 example_tad2 100000 (11 # 10) example_row).
  - repeat constructor; cbn; tauto.
  - vm_compute; left; reflexivity.
Defined.

(** ** Contiguity of the groups *)

Lemma drop_group_map_snd (x : Row) (t : Frame) :
  map snd (drop_group x t) = drop_group_rows x (map snd t).
Proof.
  induction t as [|y t IH]; cbn [drop_group drop_group_rows map]; [reflexivity|].
  destruct (same_group x (snd y)); [exact IH|reflexivity].
Qed.

Lemma forallb_map_snd (f : Row -> bool) (l : Frame) :
  forallb f (map snd l) = forallb (fun y => f (snd y)) l.
Proof.
  induction l as [|y l IH]; cbn; [reflexivity|]; rewrite IH; reflexivity.
Qed.

Lemma contiguous_map_snd (df : Frame) : contiguous df = contiguous_rows (map snd df).
Proof.
  induction df as [|x t IH]; cbn [contiguous contiguous_rows map]; [reflexivity|].
  rewrite IH, <- drop_group_map_snd, forallb_map_snd; reflexivity.
Qed.

Lemma drop_group_rows_block (x : Row) (blk rest : list Row) :
  (forall r, In r blk -> same_group x r = true) ->
  (forall r, In r rest -> same_group x r = false) ->
  drop_group_rows x (blk ++ rest) = rest.
Proof.
  intros Hblk Hrest; induction blk as [|r blk IH]; cbn [app drop_group_rows].
  - destruct rest as [|r rest]; [reflexivity|]; cbn [drop_group_rows].
    rewrite (Hrest r); cbn; auto.
  - rewrite (Hblk r) by (cbn; auto); apply IH; intros r' Hr'; apply Hblk; cbn; auto.
Qed.

Lemma contiguous_rows_block (blk rest : list Row) :
  (forall r r', In r blk -> In r' blk -> same_group r r' = true) ->
  (forall r r', In r blk -> In r' rest -> same_group r r' = false) ->
  contiguous_rows rest = true ->
  contiguous_rows (blk ++ rest) = true.
Proof.
  intros Hblk Hrest Hc; induction blk as [|r blk IH]; [exact Hc|].
  cbn [app contiguous_rows]; apply andb_true_iff; split.
  - rewrite drop_group_rows_block.
    + apply forallb_forall; intros r' Hr'; rewrite (Hrest r r'); cbn; auto.
    + intros r' Hr'; apply Hblk; cbn; auto.
    + intros r' Hr'; apply Hrest; cbn; auto.
  - apply IH.
    + intros r1 r2 H1 H2; apply Hblk; cbn; auto.
    + intros r1 r2 H1 H2; apply Hrest; cbn; auto.
Qed.

Lemma filter_flat_map {A B : Type} (f : B -> bool) (g : A -> list B) (l : list A) :
  filter f (flat_map g l) = flat_map (fun a => filter f (g a)) l.
Proof.
  induction l as [|a l IH]; cbn; [reflexivity|].
  rewrite filter_app, IH; reflexivity.
Qed.

Lemma filter_twice {A : Type} (f g : A -> bool) (l : list A) :
  filter f (filter g l) = filter (fun x => g x && f x) l.
Proof.
  induction l as [|a l IH]; cbn; [reflexivity|].
  destruct (g a); cbn; [destruct (f a)|]; rewrite IH; reflexivity.
Qed.

Lemma contiguous_rows_merge (f : Row -> bool) (binsize : Z) (flex : Q)
    (right : list Reg.t) (tad1 : list Tad.t) :
  NoDup (map Tad.start tad1) ->
  contiguous_rows
    (filter f (merge_on_chrom (modify_tads_map_by_condition tad1 binsize flex) right))
  = true.
Proof.
  unfold merge_on_chrom, modify_tads_map_by_condition; rewrite filter_flat_map.
  induction tad1 as [|a tad1 IH]; intros Hnd; [reflexivity|].
  cbn [map flat_map]; cbn [map] in Hnd; apply NoDup_cons_iff in Hnd; destruct Hnd as [Ha Hnd].
  apply contiguous_rows_block; [| |apply IH; exact Hnd].
  - intros r r' Hr Hr'; apply filter_In in Hr, Hr'.
    destruct Hr as [Hr _], Hr' as [Hr' _]; apply in_map_iff in Hr, Hr'.
    destruct Hr as (b & <- & _), Hr' as (b' & <- & _); apply merge_row_same_group.
  - intros r r' Hr Hr'; apply filter_In in Hr; destruct Hr as [Hr _].
    apply in_map_iff in Hr; destruct Hr as (b & <- & _).
    apply in_flat_map in Hr'; destruct Hr' as (w & Hw & Hr').
    apply filter_In in Hr'; destruct Hr' as [Hr' _].
    apply in_map_iff in Hr'; destruct Hr' as (b' & <- & _).
    apply in_map_iff in Hw; destruct Hw as (a' & <- & Ha').
    destruct (same_group _ _) eqn:E; [exfalso|reflexivity].
    apply same_group_start in E; cbn [start_tad1 merge_row] in E.
    apply modify_tad_start_inj in E.
    apply Ha; rewrite E; apply in_map; exact Ha'.
Qed.

(** The rows of the output are a selection of the rows of the merge, in
    the order of the merge. *)
Lemma find_split_rows_filter (tad1 tad2 : list Tad.t) (binsize : Z) (flex : Q) :
  exists f,
    map snd (find_split tad1 tad2 binsize flex)
    = filter f (merge_on_chrom (modify_tads_map_by_condition tad1 binsize flex)
                               (add_size_column tad2)).
Proof.
  eexists; rewrite find_split_stages.
  rewrite map_filter_snd with (f := isin_start_tad1 (passing tad1 tad2 binsize flex)).
  unfold duplicates.
  change (duplicated_start_tad1 (pairwise tad1 tad2 binsize flex))
    with (fun x : Z * Row =>
            (fun r => Nat.leb 2 (count_start_tad1 (pairwise tad1 tad2 binsize flex)
                                   (start_tad1 r))) (snd x)).
  rewrite map_filter_snd; unfold pairwise at 2; rewrite map_filter_snd.
  unfold merged; rewrite range_index_snd, !filter_twice; reflexivity.
Qed.

(** X6. When no two TADs of the first table start at the same position,
    the rows of every group lie next to each other in the table that
    [find_split] returns: once a group has ended, none of its rows comes
    back further down. *)
Theorem find_split_contiguous (tad1 tad2 : list Tad.t) (binsize : Z) (flex : Q) :
  NoDup (map Tad.start tad1) ->
  contiguous (find_split tad1 tad2 binsize flex) = true.
Proof.
  intros Hnd; rewrite contiguous_map_snd.
  destruct (find_split_rows_filter tad1 tad2 binsize flex) as [f ->].
  apply contiguous_rows_merge; exact Hnd.
Qed.

Lemma find_split_contiguous_witness :
  contiguous (find_split example_tad1 example_tad2 100000 (11 # 10)) = true.
Proof.
  apply (find_split_contiguous example_tad1 example_tad2 100000 (11 # 10)).
  repeat constructor; cbn; tauto.
Defined.

(** ** The region of a group *)

Lemma Qle_bool_total (a b : Q) : Qle_bool a b = false -> b <= a.
Proof.
  intros H; destruct (Qlt_le_dec a b) as [L|L]; [|exact L].
  apply Qlt_le_weak, Qle_bool_iff in L; congruence.
Qed.

Lemma Qmin'_le_l (a b : Q) : Qmin' a b <= a.
Proof.
  unfold Qmin'; destruct (Qle_bool a b) eqn:E; [apply Qle_refl|].
  apply Qle_bool_total; exact E.
Qed.

Lemma Qmin'_le_r (a b : Q) : Qmin' a b <= b.
Proof.
  unfold Qmin'; destruct (Qle_bool a b) eqn:E; [apply Qle_bool_iff; exact E|apply Qle_refl].
Qed.

Lemma Qmax'_ge_l (a b : Q) : a <= Qmax' a b.
Proof.
  unfold Qmax'; destruct (Qle_bool a b) eqn:E; [apply Qle_bool_iff; exact E|apply Qle_refl].
Qed.

Lemma Qmax'_ge_r (a b : Q) : b <= Qmax' a b.
Proof.
  unfold Qmax'; destruct (Qle_bool a b) eqn:E; [apply Qle_refl|].
  apply Qle_bool_total; exact E.
Qed.

Lemma fold_Qmax'_ge (l : list Q) : forall x, x <= fold_left Qmax' l x.
Proof.
  induction l as [|y l IH]; intros x; cbn; [apply Qle_refl|].
  eapply Qle_trans; [apply Qmax'_ge_l|apply IH].
Qed.

Lemma fold_Qmin'_le (l : list Q) : forall x, fold_left Qmin' l x <= x.
Proof.
  induction l as [|y l IH]; intros x; cbn; [apply Qle_refl|].
  eapply Qle_trans; [apply IH|apply Qmin'_le_l].
Qed.

(** X8. [find_region] raises the ValueError of [max] on an empty list of
    small TADs; on a non-empty list it returns a region of the same
    chromosome that covers the main TAD: its start is at most the start of
    the main TAD and its end at least the end of the main TAD. *)
Theorem find_region_covers_main (chrom : string) (main_start main_end : Q)
    (small_tads_coords : list (Q * Q)) :
  (small_tads_coords = [] ->
   find_region (chrom, main_start, main_end) small_tads_coords
   = Raise (ValueError "max() arg is an empty sequence"))
  /\ (small_tads_coords <> [] ->
      exists start end_,
        find_region (chrom, main_start, main_end) small_tads_coords
        = Ok (chrom, start, end_)
        /\ start <= main_start /\ main_end <= end_).
Proof.
  split; [intros ->; reflexivity|].
  destruct small_tads_coords as [|p l]; [congruence|]; intros _; cbn.
  eexists _, _; split; [reflexivity|].
  split; [apply Qmin'_le_l|apply Qmax'_ge_l].
Qed.

Lemma find_region_covers_main_witness :
  exists start end_,
    find_region ("chr1", 100, 200) [(50, 120); (130, 260)] = Ok ("chr1", start, end_)
    /\ start <= 100 /\ 200 <= end_.
Proof.
  apply (proj2 (find_region_covers_main "chr1" 100 200 [(50, 120); (130, 260)])).
  discriminate.
Defined.

Lemma find_region_of_contained (chrom : string) (main_start main_end : Q)
    (small_tads_coords : list (Q * Q)) :
  small_tads_coords <> [] ->
  (forall pair, In pair small_tads_coords ->
     main_start <= fst pair /\ snd pair <= main_end) ->
  exists start end_,
    find_region (chrom, main_start, main_end) small_tads_coords = Ok (chrom, start, end_)
    /\ start == main_start /\ end_ == main_end.
Proof.
  destruct small_tads_coords as [|p l]; [congruence|]; intros _ H; cbn.
  eexists _, _; split; [reflexivity|].
  destruct (H p) as [H1 H2]; [cbn; auto|].
  split.
  - unfold Qmin' at 1.
    match goal with |- (if Qle_bool ?a ?b then _ else _) == _ =>
      assert (E : Qle_bool a b = true) end.
    { apply Qle_bool_iff.
      eapply Qle_trans; [exact H1|].
      eapply Qle_trans; [apply (Qmax'_ge_l (fst p) (snd p))|apply fold_Qmax'_ge]. }
    rewrite E; reflexivity.
  - assert (L : fold_left Qmin' (map (fun pair => Qmin' (fst pair) (snd pair)) l)
                  (Qmin' (fst p) (snd p)) <= main_end).
    { eapply Qle_trans; [apply fold_Qmin'_le|].
      eapply Qle_trans; [apply Qmin'_le_r|exact H2]. }
    unfold Qmax' at 1.
    match goal with |- (if Qle_bool ?a ?b then _ else _) == _ =>
      destruct (Qle_bool a b) eqn:E end; [|reflexivity].
    apply Qle_bool_iff in E; apply Qle_antisym; assumption.
Qed.

Lemma group_smalls_In (df : Frame) (r : Row) (pair : Q * Q) :
  In pair (group_smalls df r) ->
  exists y, In y df /\ same_group r (snd y) = true /\ pair = small_coords (snd y).
Proof.
  unfold group_smalls; intros H; apply in_map_iff in H; destruct H as (y & <- & Hy).
  apply filter_In in Hy; destruct Hy as [Hy E]; exists y; auto.
Qed.

(** X9. For every row of the table that [find_split] returns, the region
    that [find_region] computes from the main TAD of the row and the small
    TADs of its group is the widened main TAD itself: the small TADs never
    stretch it. *)
Theorem find_region_on_find_split (tad1 tad2 : list Tad.t) (binsize : Z) (flex : Q)
    (x : Z * Row) :
  In x (find_split tad1 tad2 binsize flex) ->
  exists start end_,
    find_region (main_coords (snd x))
      (group_smalls (find_split tad1 tad2 binsize flex) (snd x))
    = Ok (chrom (snd x), start, end_)
    /\ start == start_tad1 (snd x) /\ end_ == end_tad1 (snd x).
Proof.
  intros Hx; unfold main_coords; apply find_region_of_contained.
  - intros E.
    assert (Hin : In (small_coords (snd x))
                     (group_smalls (find_split tad1 tad2 binsize flex) (snd x))).
    { unfold group_smalls; apply in_map_iff; exists x; split; [reflexivity|].
      apply filter_In; split; [exact Hx|]; apply coords_eqb_refl. }
    rewrite E in Hin; destruct Hin.
  - intros pair Hp; apply group_smalls_In in Hp; destruct Hp as (y & Hy & Es & ->).
    apply find_split_In_duplicates, duplicates_In_pairwise, pairwise_In in Hy.
    destruct Hy as (Hc & _); unfold contained in Hc.
    apply andb_true_iff in Hc; destruct Hc as [Hc _].
    apply andb_true_iff in Hc; destruct Hc as [H1 H2].
    apply Qle_bool_iff in H1, H2.
    unfold same_group, coords_eqb, main_coords in Es.
    apply andb_true_iff in Es; destruct Es as [Es E2].
    apply andb_true_iff in Es; destruct Es as [_ E1].
    apply Qeq_bool_iff in E1, E2; cbn [small_coords fst snd].
    rewrite E1, E2; auto.
Qed.

Lemma find_region_on_find_split_witness :
  exists start end_,
    find_region (main_coords (snd example_row))
      (group_smalls (find_split example_tad1 example_tad2 100000 (11 # 10))
                    (snd example_row))
    = Ok (chrom (snd example_row), start, end_)
    /\ start == start_tad1 (snd example_row) /\ end_ == end_tad1 (snd example_row).
Proof.
  apply (find_region_on_find_split example_tad1 example_tad2 100000 (11 # 10) example_row).
  vm_compute; left; reflexivity.
Defined.

(** ** What [choose_region] returns *)

Section Complete.
Variable pval : Type.
Variable intensity_of_region : string * Q * Q -> list (Q * Q) -> res pval.

(** A stretch of rows of one group at the front of a table is the start
    of the first maximal run. *)
Lemma run_prefix (c0 : Row) (ctl : Frame) :
  Forall (fun y => same_group c0 (snd y) = true) ctl ->
  forall tl rest0 rest,
    match rest0 with
    | [] => True
    | y :: _ => same_group c0 (snd y) = false
    end ->
    tl ++ rest0 = ctl ++ rest ->
    exists more, tl = ctl ++ more /\ rest = more ++ rest0.
Proof.
  induction 1 as [|y ctl Hy _ IH]; intros tl rest0 rest Hmax E.
  - exists tl; split; [reflexivity|symmetry; exact E].
  - destruct tl as [|t tl]; cbn [app] in E.
    + subst rest0; congruence.
    + injection E as -> E.
      destruct (IH tl rest0 rest Hmax E) as (more & -> & ->).
      exists more; split; reflexivity.
Qed.

(** The first run of a table that starts with an open group. *)
Lemma Runs_open (c0 : Z * Row) (ctl rest : Frame) out cs :
  Forall (fun y => same_group (snd c0) (snd y) = true) ctl ->
  Runs intensity_of_region ((c0 :: ctl) ++ rest) out cs ->
  exists more rest' p out' cs',
    rest = more ++ rest'
    /\ Forall (fun y => same_group (snd c0) (snd y) = true) more
    /\ match rest' with
       | [] => True
       | y :: _ => same_group (snd c0) (snd y) = false
       end
    /\ create_diff_matrix intensity_of_region (main_coords (snd c0))
         (map (fun y => small_coords (snd y)) ((c0 :: ctl) ++ more)) = Ok p
    /\ Runs intensity_of_region rest' out' cs'
    /\ out = scored p ((c0 :: ctl) ++ more) ++ out'
    /\ cs = (main_coords (snd c0),
             map (fun y => small_coords (snd y)) ((c0 :: ctl) ++ more)) :: cs'.
Proof.
  intros Hall H; remember ((c0 :: ctl) ++ rest) as df eqn:E.
  destruct H as [|hd tl rest0 p out cs Htl Hmax Hp Hruns]; [discriminate|].
  cbn [app] in E; injection E as -> E.
  destruct (run_prefix (snd c0) ctl Hall tl rest0 rest Hmax E) as (more & -> & ->).
  exists more, rest0, p, out, cs.
  apply Forall_app in Htl; destruct Htl as [_ Hmore].
  cbn [app]; auto 10.
Qed.

(** The table determines its runs and what they are given. *)
Lemma Runs_functional df out cs :
  Runs intensity_of_region df out cs ->
  forall out' cs', Runs intensity_of_region df out' cs' -> out = out' /\ cs = cs'.
Proof.
  induction 1 as [|hd tl rest p out cs Htl Hmax Hp _ IH]; intros out' cs' H'.
  - remember (@nil (Z * Row)) as df eqn:E.
    destruct H'; [auto|discriminate].
  - apply Runs_open in H'; [|exact Htl].
    destruct H' as (more & rest' & p' & out2 & cs2 & E & Hmore & _ & Hp' & Hruns & -> & ->).
    destruct more as [|y more].
    + cbn [app] in E; subst rest'; rewrite app_nil_r in *.
      rewrite Hp in Hp'; injection Hp' as <-.
      destruct (IH _ _ Hruns) as [<- <-]; auto.
    + exfalso; subst rest; apply Forall_inv in Hmore; cbn [app] in Hmax; congruence.
Qed.

Lemma score_and_broadcast_open (st : locals pval) pre c0 ctl rest (p : pval) :
  open_group st pre c0 ctl rest ->
  create_diff_matrix intensity_of_region (main_coords (snd c0))
    (map (fun y => small_coords (snd y)) (c0 :: ctl)) = Ok p ->
  exists st', score_and_broadcast intensity_of_region st = Ok st'.
Proof.
  intros (Hm & Hs & Hb & _) Hp; unfold score_and_broadcast.
  rewrite Hm, Hs, Hp; cbn [bind]; rewrite Hb; cbn [map].
  eexists; reflexivity.
Qed.

(** One iteration, up to the test on the last label, when the group that
    the row closes can be scored. *)
Lemma loop_body_progress (mid : locals pval) pre c0 ctl x rest1 lastl :
  fst x <> 0%Z ->
  open_group mid pre c0 ctl (x :: rest1) ->
  NoDup (map label pre ++ map fst (c0 :: ctl)) ->
  (same_group (snd c0) (snd x) = false ->
   exists p, create_diff_matrix intensity_of_region (main_coords (snd c0))
               (map (fun y => small_coords (snd y)) (c0 :: ctl)) = Ok p) ->
  exists mid' pre' c0' ctl',
    loop_body intensity_of_region lastl mid x
    = (if Z.eqb (fst x) lastl
       then score_and_broadcast intensity_of_region mid' else Ok mid')
    /\ open_group mid' pre' c0' ctl' rest1
    /\ ((same_group (snd c0) (snd x) = true
         /\ pre' = pre /\ c0' = c0 /\ ctl' = ctl ++ [x])
        \/ (same_group (snd c0) (snd x) = false
            /\ c0' = x /\ ctl' = []
            /\ exists p,
                create_diff_matrix intensity_of_region (main_coords (snd c0))
                  (map (fun y => small_coords (snd y)) (c0 :: ctl)) = Ok p
                /\ pre' = pre ++ scored p (c0 :: ctl))).
Proof.
  intros H0 Hopen Hnd Hscore; unfold loop_body.
  destruct (Z.eqb_spec (fst x) 0) as [E|_]; [contradiction|].
  pose proof Hopen as (Hm & Hs & Hb & Hdf & Hall).
  rewrite Hm; fold (same_group (snd c0) (snd x)).
  destruct (same_group (snd c0) (snd x)) eqn:Esame; cbn [negb bind].
  - eexists _, pre, c0, (ctl ++ [x]); split; [reflexivity|]; split; [|left; auto].
    unfold open_group; cbn.
    rewrite Hm, Hs, Hb, Hdf; cbn.
    rewrite !map_app; cbn.
    split; [reflexivity|]. split; [reflexivity|]. split; [reflexivity|].
    split.
    + unfold unscored; cbn; rewrite ?map_app; cbn.
      rewrite <- ?app_assoc; reflexivity.
    + apply Forall_app; split; [exact Hall|]; constructor; auto.
  - destruct (Hscore eq_refl) as [p Hp].
    destruct (score_and_broadcast_open mid pre c0 ctl _ p Hopen Hp) as [st1 Hst1].
    rewrite Hst1; cbn [bind].
    destruct (score_open_group pval intensity_of_region _ _ _ _ _ _ Hopen Hnd Hst1)
      as (p' & Hp' & Hdf1 & _).
    eexists _, (pre ++ scored p' (c0 :: ctl)), x, []; split; [reflexivity|].
    split; [|right; split; [reflexivity|]; eauto].
    unfold open_group; cbn.
    split; [reflexivity|]. split; [reflexivity|]. split; [reflexivity|].
    split; [|constructor].
    rewrite Hdf1, <- app_assoc; reflexivity.
Qed.

(** From a state with an open group to the end of the loop, when every
    run that is left can be scored. *)
Lemma iterrows_complete (lastl : Z) :
  forall rest mid pre c0 ctl index out cs,
    open_group mid pre c0 ctl rest ->
    NoDup (map label pre ++ map fst (c0 :: ctl) ++ map fst rest) ->
    ~ In 0%Z (map fst rest) ->
    NoDup (index :: map fst rest) ->
    lastl = List.last (index :: map fst rest) 0%Z ->
    Runs intensity_of_region ((c0 :: ctl) ++ rest) out cs ->
    exists st',
      (st2 <- (if Z.eqb index lastl
               then score_and_broadcast intensity_of_region mid else Ok mid) ;;
       iterrows intensity_of_region lastl rest st2) = Ok st'.
Proof.
  induction rest as [|x rest IH]; intros mid pre c0 ctl index out cs Hopen Hnd H0 Hidx Hlast H.
  - rewrite Hlast; cbn [map List.last]; rewrite Z.eqb_refl.
    pose proof Hopen as (_ & _ & _ & _ & Hall).
    destruct (Runs_open _ _ _ _ _ Hall H) as (more & rest' & p & _ & _ & E & _ & _ & Hp & _).
    symmetry in E; apply app_eq_nil in E; destruct E as [-> _]; rewrite app_nil_r in Hp.
    destruct (score_and_broadcast_open mid pre c0 ctl _ p Hopen Hp) as [st1 ->].
    cbn; eexists; reflexivity.
  - assert (Enot : Z.eqb index lastl = false).
    { destruct (Z.eqb index lastl) eqn:E; [|reflexivity].
      rewrite Hlast in E; apply is_last_label in E; [discriminate|exact Hidx]. }
    rewrite Enot; cbn [bind iterrows].
    assert (Hx0 : fst x <> 0%Z) by (intros E; apply H0; cbn; auto).
    assert (Hnd' : NoDup (map label pre ++ map fst (c0 :: ctl))).
    { rewrite app_assoc in Hnd; apply NoDup_app_remove_r in Hnd; exact Hnd. }
    pose proof Hopen as (_ & _ & _ & _ & Hall).
    destruct (Runs_open _ _ _ _ _ Hall H)
      as (more & rest' & p & out' & cs' & E & Hmore & _ & Hp & Hruns & _).
    assert (Hclosed : same_group (snd c0) (snd x) = false -> more = []).
    { intros Esame; destruct more as [|y more]; [reflexivity|].
      cbn [app] in E; injection E as <- _.
      apply Forall_inv in Hmore; congruence. }
    destruct (loop_body_progress mid pre c0 ctl x rest lastl Hx0 Hopen Hnd')
      as (mid' & pre' & c0' & ctl' & Hbody & Hopen' & Hcase).
    { intros Esame; rewrite (Hclosed Esame), app_nil_r in Hp; eauto. }
    rewrite Hbody.
    assert (Hlast' : lastl = List.last (fst x :: map fst rest) 0%Z)
      by (rewrite Hlast; reflexivity).
    assert (Hidx' : NoDup (fst x :: map fst rest))
      by (apply NoDup_cons_iff in Hidx; tauto).
    assert (H0' : ~ In 0%Z (map fst rest)) by (intros Hin; apply H0; cbn; auto).
    destruct Hcase as [(Esame & -> & -> & ->)|(Esame & -> & -> & p' & _ & ->)].
    + apply (IH mid' pre c0 (ctl ++ [x]) (fst x) out cs Hopen'); auto.
      * cbn in Hnd |- *; rewrite ?map_app; cbn.
        rewrite <- ?app_assoc; cbn; exact Hnd.
      * cbn [app] in H |- *; rewrite <- app_assoc; exact H.
    + rewrite (Hclosed Esame) in E; cbn [app] in E; subst rest'.
      apply (IH mid' (pre ++ scored p' (c0 :: ctl)) x [] (fst x) out' cs' Hopen'); auto.
      rewrite map_app, map_label_scored, <- app_assoc; exact Hnd.
Qed.

(** On a table with distinct labels whose first label is 0, the loop of
    [choose_region] runs to its end when every run can be scored. *)
Lemma choose_region_run_complete (df : Frame) out cs :
  NoDup (map fst df) ->
  match df with
  | [] => True
  | x :: _ => fst x = 0%Z
  end ->
  Runs intensity_of_region df out cs ->
  exists st, choose_region_run intensity_of_region df = Ok st.
Proof.
  intros Hnd Hfirst Hruns; unfold choose_region_run.
  destruct df as [|x rest]; cbn [iterrows]; [eexists; reflexivity|].
  set (lastl := List.last (map fst (x :: rest)) 0%Z).
  set (mid := @mkLocals pval (Some (main_coords (snd x))) [small_coords (snd x)]
                       [fst x] (@unscored pval (x :: rest)) []).
  assert (Hbody : loop_body intensity_of_region lastl
                    (@mkLocals pval None [] []
                       (map (fun x => mkARow (fst x) (snd x) None) (x :: rest)) []) x
                  = if Z.eqb (fst x) lastl
                    then score_and_broadcast intensity_of_region mid else Ok mid).
  { unfold loop_body; cbn.
    destruct (Z.eqb_spec (fst x) 0); [|contradiction].
    cbn [main_tad_coords]; rewrite coords_eqb_refl; reflexivity. }
  rewrite Hbody.
  assert (Hopen : open_group mid [] x [] rest).
  { unfold open_group, mid; cbn; auto. }
  assert (H0 : ~ In 0%Z (map fst rest)).
  { cbn in Hnd; apply NoDup_cons_iff in Hnd; rewrite Hfirst in Hnd; tauto. }
  apply (iterrows_complete lastl rest mid [] x [] (fst x) out cs Hopen); auto.
Qed.

End Complete.

(** On such a table [choose_region] returns the table scored run by
    run. *)
Lemma choose_region_of_runs (pval : Type)
    (intensity_of_region : string * Q * Q -> list (Q * Q) -> res pval)
    (df : Frame) out cs :
  NoDup (map fst df) ->
  match df with
  | [] => True
  | x :: _ => fst x = 0%Z
  end ->
  Runs intensity_of_region df out cs ->
  choose_region intensity_of_region df = Ok out.
Proof.
  intros Hnd Hfirst Hruns; unfold choose_region.
  destruct (choose_region_run_complete pval intensity_of_region df out cs Hnd Hfirst Hruns)
    as [st Hrun].
  rewrite Hrun; cbn [bind]; f_equal.
  pose proof (choose_region_run_runs pval intensity_of_region df st Hnd Hrun) as Hruns'.
  destruct (Runs_functional pval intensity_of_region _ _ _ Hruns' _ _ Hruns) as [E _].
  exact E.
Qed.

(** X10. When the index labels of the table are distinct and
    [choose_region] returns, the returned table has the labels and the
    rows of the input, in the same order: only the [pvalue] column is
    new. *)
Theorem choose_region_keeps_rows (pval : Type)
    (intensity_of_region : string * Q * Q -> list (Q * Q) -> res pval)
    (df : Frame) (out : list (ARow pval)) :
  NoDup (map fst df) ->
  choose_region intensity_of_region df = Ok out ->
  map (fun x => (label x, row x)) out = df.
Proof.
  intros Hnd H; unfold choose_region in H.
  destruct (choose_region_run intensity_of_region df) as [st|e] eqn:Hrun;
    cbn [bind] in H; [|discriminate].
  injection H as <-.
  pose proof (choose_region_run_runs pval intensity_of_region df st Hnd Hrun) as Hruns.
  apply (Runs_rows pval intensity_of_region _ _ _ Hruns).
Qed.

Lemma choose_region_keeps_rows_witness :
  map (fun x => (label x, row x))
    (scored (1 # 2) (find_split example_tad1 example_tad2 100000 (11 # 10)))
  = find_split example_tad1 example_tad2 100000 (11 # 10).
Proof.
  apply (choose_region_keeps_rows Q example_score_pairs
           (find_split example_tad1 example_tad2 100000 (11 # 10))).
  - vm_compute; repeat constructor; cbn; intuition discriminate.
  - vm_compute; reflexivity.
Defined.

(** X11. On a table with distinct index labels, [choose_region] returns
    a table exactly when the input is empty or its first label is 0, and
    every maximal run of consecutive rows of one group can be scored on
    the small TADs of the run; the table returned is then the input with
    every run given the value of its scoring. *)
Theorem choose_region_returns_iff (pval : Type)
    (intensity_of_region : string * Q * Q -> list (Q * Q) -> res pval)
    (df : Frame) (out : list (ARow pval)) :
  NoDup (map fst df) ->
  (choose_region intensity_of_region df = Ok out
   <-> match df with
       | [] => True
       | x :: _ => fst x = 0%Z
       end
       /\ exists cs, Runs intensity_of_region df out cs).
Proof.
  intros Hnd; split.
  - unfold choose_region.
    destruct (choose_region_run intensity_of_region df) as [st|e] eqn:Hrun;
      cbn [bind]; [|discriminate].
    intros H; injection H as <-; split.
    + destruct df as [|x rest]; [trivial|].
      destruct (Z.eqb_spec (fst x) 0) as [E|E]; [exact E|exfalso].
      apply Z.eqb_neq in E.
      unfold choose_region_run in Hrun; cbn [iterrows] in Hrun.
      unfold loop_body in Hrun; rewrite E in Hrun; cbn in Hrun; discriminate.
    + exists (calls st); apply choose_region_run_runs; assumption.
  - intros (Hfirst & cs & Hruns); apply (choose_region_of_runs _ _ _ _ cs); assumption.
Qed.

Lemma choose_region_returns_iff_witness :
  choose_region example_score_pairs (find_split example_tad1 example_tad2 100000 (11 # 10))
  = Ok (scored (1 # 2) (find_split example_tad1 example_tad2 100000 (11 # 10))).
Proof.
  refine (proj2 (choose_region_returns_iff Q example_score_pairs
                   (find_split example_tad1 example_tad2 100000 (11 # 10))
                   (scored (1 # 2) (find_split example_tad1 example_tad2 100000 (11 # 10)))
                   _) _).
  - vm_compute; repeat constructor; cbn; intuition discriminate.
  - split; [vm_compute; reflexivity|].
    eexists.
    change (find_split example_tad1 example_tad2 100000 (11 # 10))
      with ((example_row :: [example_row2]) ++ []).
    apply (Runs_cons Q example_score_pairs example_row [example_row2] [] (1 # 2) [] []).
    + repeat constructor.
    + exact I.
    + reflexivity.
    + constructor.
Defined.



(** ** [choose_region] on the output of [find_split] *)

(** X7. When no two TADs of the first table start at the same position
    and [choose_region] runs to its end on the table that [find_split]
    returns, every group of that table is scored exactly once, on all the
    small TADs of the group, of which there are at least two, and every
    row carries the value of its group. *)
Theorem choose_region_on_find_split (pval : Type)
    (intensity_of_region : string * Q * Q -> list (Q * Q) -> res pval)
    (tad1 tad2 : list Tad.t) (binsize : Z) (flex : Q) (st : locals pval) :
  NoDup (map Tad.start tad1) ->
  choose_region_run intensity_of_region (find_split tad1 tad2 binsize flex) = Ok st ->
  forall x, In x (df_with_value st) ->
    exists k p,
      filter (fun c => coords_eqb (fst c) (main_coords (row x))) (calls st)
      = [(k, group_smalls (find_split tad1 tad2 binsize flex) (row x))]
      /\ (2 <= List.length (group_smalls (find_split tad1 tad2 binsize flex) (row x)))%nat
      /\ create_diff_matrix intensity_of_region k
           (group_smalls (find_split tad1 tad2 binsize flex) (row x)) = Ok p
      /\ pvalue x = Some p.
Proof.
  intros Hnd Hrun x Hx.
  assert (Hlab : NoDup (map fst (find_split tad1 tad2 binsize flex)))
    by apply StronglySorted_lt_NoDup, find_split_labels_sorted.
  assert (Hcont : contiguous (find_split tad1 tad2 binsize flex) = true).
  { rewrite contiguous_map_snd.
    destruct (find_split_rows_filter tad1 tad2 binsize flex) as [f ->].
    apply contiguous_rows_merge; exact Hnd. }
  pose proof (choose_region_run_runs pval intensity_of_region _ st Hlab Hrun) as Hruns.
  destruct (Runs_groups pval intensity_of_region _ _ _ Hruns Hcont x Hx)
    as (k & p & Hf & Hp & Hpv).
  exists k, p; split; [exact Hf|]; split; [|auto].
  assert (Hin : In (label x, row x) (find_split tad1 tad2 binsize flex)).
  { rewrite <- (Runs_rows pval intensity_of_region _ _ _ Hruns).
    apply (in_map (fun x => (label x, row x))); exact Hx. }
  unfold group_smalls; rewrite length_map.
  change (row x) with (snd (label x, row x)).
  rewrite (find_split_group_rows _ _ _ _ _ Hnd Hin).
  destruct (find_split_start_rows _ _ _ _ _ Hin) as [E HD].
  rewrite E; apply Nat.leb_le; exact HD.
Qed.

Lemma choose_region_on_find_split_witness :
  exists st,
    choose_region_run example_score
      (find_split example_tad1 example_tad2 100000 (11 # 10)) = Ok st
    /\ forall x, In x (df_with_value st) ->
         exists k p,
           filter (fun c => coords_eqb (fst c) (main_coords (row x))) (calls st)
           = [(k, group_smalls (find_split example_tad1 example_tad2 100000 (11 # 10))
                    (row x))]
           /\ (2 <= List.length
                      (group_smalls (find_split example_tad1 example_tad2 100000 (11 # 10))
                         (row x)))%nat
           /\ create_diff_matrix example_score k
                (group_smalls (find_split example_tad1 example_tad2 100000 (11 # 10))
                   (row x)) = Ok p
           /\ pvalue x = Some p.
Proof.
  eexists; split; [vm_compute; reflexivity|].
  apply (choose_region_on_find_split Q example_score example_tad1 example_tad2
           100000 (11 # 10)).
  - repeat constructor; cbn; tauto.
  - vm_compute; reflexivity.
Defined.

(** ** Chromosomes of the two tables *)

Lemma get_chrom_list_In (tad1 tad2 : list Tad.t) (c : string) :
  In c (fst (get_chrom_list tad1 tad2))
  <-> In c (map Tad.chrom tad1) /\ In c (map Tad.chrom tad2).
Proof.
  cbn; rewrite filter_In, existsb_eqb_In.
  unfold unique; rewrite !unique_acc_In; cbn; tauto.
Qed.

(** X13. For every chromosome of the list that [get_chrom_list] returns,
    [get_chroms_coords] returns two non-empty tables: exactly the rows of
    the first table and the rows of the second table on that chromosome. *)
Theorem get_chroms_coords_of_common (tad1 tad2 : list Tad.t) (chrom : string) :
  In chrom (fst (get_chrom_list tad1 tad2)) ->
  fst (get_chroms_coords tad1 tad2 chrom) <> []
  /\ snd (get_chroms_coords tad1 tad2 chrom) <> []
  /\ (forall t, In t (fst (get_chroms_coords tad1 tad2 chrom))
                <-> In t tad1 /\ Tad.chrom t = chrom)
  /\ (forall t, In t (snd (get_chroms_coords tad1 tad2 chrom))
                <-> In t tad2 /\ Tad.chrom t = chrom).
Proof.
  intros H; apply get_chrom_list_In in H; destruct H as [H1 H2].
  assert (Hin : forall l t,
             In t (filter (fun t => String.eqb (Tad.chrom t) chrom) l)
             <-> In t l /\ Tad.chrom t = chrom).
  { intros l t; rewrite filter_In, String.eqb_eq; tauto. }
  assert (Hne : forall l, In chrom (map Tad.chrom l) ->
                          filter (fun t => String.eqb (Tad.chrom t) chrom) l <> []).
  { intros l Hl E; apply in_map_iff in Hl; destruct Hl as (t & Et & Ht).
    assert (Hf : In t (filter (fun t => String.eqb (Tad.chrom t) chrom) l))
      by (apply Hin; auto).
    rewrite E in Hf; destruct Hf. }
  cbn [get_chroms_coords fst snd].
  split; [apply Hne; exact H1|]. split; [apply Hne; exact H2|].
  split; intros t; apply Hin.
Qed.

Lemma get_chroms_coords_of_common_witness :
  fst (get_chroms_coords example_tad1 example_tad2 "chr1") <> []
  /\ snd (get_chroms_coords example_tad1 example_tad2 "chr1") <> []
  /\ (forall t, In t (fst (get_chroms_coords example_tad1 example_tad2 "chr1"))
                <-> In t example_tad1 /\ Tad.chrom t = "chr1")
  /\ (forall t, In t (snd (get_chroms_coords example_tad1 example_tad2 "chr1"))
                <-> In t example_tad2 /\ Tad.chrom t = "chr1").
Proof.
  apply (get_chroms_coords_of_common example_tad1 example_tad2 "chr1").
  vm_compute; left; reflexivity.
Defined.

(** X14. Swapping the two tables gives [get_chrom_list] the same
    chromosomes, possibly in another order, and the same warning. *)
Theorem get_chrom_list_swap (tad1 tad2 : list Tad.t) :
  Permutation (fst (get_chrom_list tad1 tad2)) (fst (get_chrom_list tad2 tad1))
  /\ snd (get_chrom_list tad1 tad2) = snd (get_chrom_list tad2 tad1).
Proof.
  split.
  - apply NoDup_Permutation.
    + apply NoDup_filter, unique_acc_NoDup.
    + apply NoDup_filter, unique_acc_NoDup.
    + intros c; rewrite !get_chrom_list_In; tauto.
  - cbn; rewrite (Nat.eqb_sym (List.length (unique (map Tad.chrom tad1)))); reflexivity.
Qed.

(** ** Tables without a common chromosome *)

Lemma get_chrom_list_disjoint (tad1 tad2 : list Tad.t) :
  (forall c, In c (map Tad.chrom tad1) -> ~ In c (map Tad.chrom tad2)) ->
  fst (get_chrom_list tad1 tad2) = [] /\ fst (get_chrom_list tad2 tad1) = [].
Proof.
  intros H.
  assert (E : forall t1 t2, (forall c, In c (fst (get_chrom_list t1 t2)) -> False) ->
                            fst (get_chrom_list t1 t2) = []).
  { intros t1 t2 Hc; destruct (fst (get_chrom_list t1 t2)) as [|c l]; [reflexivity|].
    exfalso; apply (Hc c); cbn; auto. }
  split; apply E; intros c Hc; apply get_chrom_list_In in Hc; destruct Hc as [H1 H2];
    [apply (H c H1 H2)|apply (H c H2 H1)].
Qed.

(** X15. When the two tables have no chromosome in common, the detection
    of both kinds of event stops with KeyError 'start_tad1' ([choose_region]
    is handed the empty DataFrame that was never concatenated to), and the
    entry point prints that traceback and returns [None]. *)
Theorem detect_without_common_chromosome (pval : Type)
    (intensity_of_region : string * Q * Q -> list (Q * Q) -> res pval)
    (tad1 tad2 : list Tad.t) (binsize : Z) :
  (forall c, In c (map Tad.chrom tad1) -> ~ In c (map Tad.chrom tad2)) ->
  (forall option,
      detect intensity_of_region option tad1 tad2 binsize = Raise (KeyError "start_tad1"))
  /\ main_split_merge_detection intensity_of_region (mkArguments tad1 tad2 binsize)
     = (None, Stderr_traceback (KeyError "start_tad1")).
Proof.
  intros H; destruct (get_chrom_list_disjoint tad1 tad2 H) as [E1 E2].
  assert (Hd : forall option,
             detect intensity_of_region option tad1 tad2 binsize
             = Raise (KeyError "start_tad1")).
  { intros option; unfold detect.
    destruct (String.eqb option "merge"); [rewrite E2|rewrite E1]; reflexivity. }
  split; [exact Hd|].
  unfold main_split_merge_detection, wrapper_print, main_split_merge_detection_body.
  cbn [tads_1 tads_2 binsize_arg]; rewrite Hd; reflexivity.
Qed.

Lemma detect_without_common_chromosome_witness :
  (forall option,
      detect example_score option example_tad1 [Tad.mk "chr2" 0 140] 100000
      = Raise (KeyError "start_tad1"))
  /\ main_split_merge_detection example_score
       (mkArguments example_tad1 [Tad.mk "chr2" 0 140] 100000)
     = (None, Stderr_traceback (KeyError "start_tad1")).
Proof.
  apply (detect_without_common_chromosome Q example_score example_tad1
           [Tad.mk "chr2" 0 140] 100000).
  intros c [<-|[]] [E|[]]; discriminate E.
Defined.

(** ** Swapping the two tables *)

Lemma detect_merge_is_split_swapped (pval : Type)
    (intensity_of_region : string * Q * Q -> list (Q * Q) -> res pval)
    (tad1 tad2 : list Tad.t) (binsize : Z) :
  match detect intensity_of_region "merge" tad1 tad2 binsize with
  | Ok s => exists s', detect intensity_of_region "split" tad2 tad1 binsize = Ok s'
                       /\ fst s' = fst s
  | Raise e => detect intensity_of_region "split" tad2 tad1 binsize = Raise e
  end.
Proof.
  unfold detect; cbn [String.eqb Ascii.eqb Bool.eqb andb].
  destruct (fold_left (accumulate tad2 tad1) (fst (get_chrom_list tad2 tad1)) None)
    as [t|]; [|reflexivity].
  destruct (choose_region intensity_of_region t) as [final|e]; cbn [bind]; [|reflexivity].
  eexists; split; reflexivity.
Qed.

(** X16. When the entry point prints the pair (splits, merges) for two
    tables, it prints (merges, splits) for the same tables in the other
    order: a merge is a split seen from the other table. *)
Theorem main_swap_tables (pval : Type)
    (intensity_of_region : string * Q * Q -> list (Q * Q) -> res pval)
    (tad1 tad2 : list Tad.t) (binsize : Z) (splits merges : nat) :
  main_split_merge_detection intensity_of_region (mkArguments tad1 tad2 binsize)
  = (None, Stdout_result (splits, merges)) ->
  main_split_merge_detection intensity_of_region (mkArguments tad2 tad1 binsize)
  = (None, Stdout_result (merges, splits)).
Proof.
  unfold main_split_merge_detection, wrapper_print, main_split_merge_detection_body.
  cbn [tads_1 tads_2 binsize_arg].
  pose proof (detect_merge_is_split_swapped pval intensity_of_region tad1 tad2 binsize) as H1.
  pose proof (detect_merge_is_split_swapped pval intensity_of_region tad2 tad1 binsize) as H2.
  destruct (detect intensity_of_region "split" tad1 tad2 binsize) as [s|e];
    cbn [bind]; [|discriminate].
  destruct (detect intensity_of_region "merge" tad1 tad2 binsize) as [m|e];
    cbn [bind]; [|discriminate].
  destruct H1 as (s' & -> & Es').
  destruct (detect intensity_of_region "merge" tad2 tad1 binsize) as [m'|e'].
  - destruct H2 as (s'' & H2 & Es''); injection H2 as <-.
    cbn [bind]; intros H; injection H as <- <-.
    rewrite Es', Es''; reflexivity.
  - discriminate.
Qed.

Lemma main_swap_tables_witness :
  main_split_merge_detection example_score (mkArguments example_tad2 example_tad1 100000)
  = (None, Stdout_result (0%nat, 1%nat)).
Proof.
  apply (main_swap_tables Q example_score example_tad1 example_tad2 100000 1 0).
  vm_compute; reflexivity.
Defined.

(** ** The count of events and [binsize] *)

Lemma Qeq_bool_plus (a b c : Q) : Qeq_bool (a + c) (b + c) = Qeq_bool a b.
Proof.
  destruct (Qeq_bool a b) eqn:E.
  - apply Qeq_bool_iff; apply Qeq_bool_iff in E; rewrite E; reflexivity.
  - destruct (Qeq_bool (a + c) (b + c)) eqn:E'; [|reflexivity].
    apply Qeq_bool_iff in E'; apply -> Qplus_inj_r in E'.
    apply Qeq_bool_iff in E'; congruence.
Qed.

Lemma pair_eqb_shift (c : Q) (a b : Q * Q) :
  pair_eqb (shift_pair c a) (shift_pair c b) = pair_eqb a b.
Proof.
  unfold pair_eqb, shift_pair; cbn [fst snd]; unfold Qminus.
  rewrite !Qeq_bool_plus; reflexivity.
Qed.

Lemma drop_duplicates_acc_shift (c : Q) (l : list (Q * Q)) :
  forall seen,
    List.length (drop_duplicates_acc (map (shift_pair c) seen) (map (shift_pair c) l))
    = List.length (drop_duplicates_acc seen l).
Proof.
  induction l as [|x l IH]; intros seen; cbn [map drop_duplicates_acc]; [reflexivity|].
  assert (E : existsb (pair_eqb (shift_pair c x)) (map (shift_pair c) seen)
              = existsb (pair_eqb x) seen).
  { induction seen as [|y seen IHs]; cbn; [reflexivity|].
    rewrite pair_eqb_shift, IHs; reflexivity. }
  rewrite E; destruct (existsb (pair_eqb x) seen); [apply IH|].
  cbn [List.length]; f_equal; apply (IH (x :: seen)).
Qed.

Lemma drop_duplicates_acc_length_le (l : list (Q * Q)) :
  forall seen, (List.length (drop_duplicates_acc seen l) <= List.length l)%nat.
Proof.
  induction l as [|x l IH]; intros seen; cbn; [lia|].
  destruct (existsb (pair_eqb x) seen); cbn.
  - specialize (IH seen); lia.
  - specialize (IH (x :: seen)); lia.
Qed.

Lemma count_events_shift (pval : Type) (df : list (ARow pval)) (binsize : Z) :
  count_events (demodify_tads_map df binsize) = count_events df.
Proof.
  unfold count_events, drop_duplicates, demodify_tads_map.
  rewrite map_map; cbn [row demodify_row start_tad1 end_tad1].
  rewrite <- (drop_duplicates_acc_shift (BINSIZE_COEF * inject_Z binsize)
                (map (fun x => (start_tad1 (row x), end_tad1 (row x))) df) []).
  rewrite map_map; reflexivity.
Qed.

(** X17. The number of events counted on a scored table does not change
    when the widening of the main TADs is undone, whatever the bin size,
    and it is never more than the number of rows of the table. *)
Theorem count_events_demodify (pval : Type) (df : list (ARow pval)) (binsize : Z) :
  count_events (demodify_tads_map df binsize) = count_events df
  /\ (count_events df <= List.length df)%nat.
Proof.
  split; [apply count_events_shift|].
  unfold count_events, drop_duplicates.
  etransitivity; [apply drop_duplicates_acc_length_le|rewrite length_map; lia].
Qed.

Lemma detect_binsize (pval : Type)
    (intensity_of_region : string * Q * Q -> list (Q * Q) -> res pval)
    (option : string) (tad1 tad2 : list Tad.t) (binsize binsize' : Z) :
  match detect intensity_of_region option tad1 tad2 binsize with
  | Ok s => exists s', detect intensity_of_region option tad1 tad2 binsize' = Ok s'
                       /\ count_events (fst s') = count_events (fst s)
  | Raise e => detect intensity_of_region option tad1 tad2 binsize' = Raise e
  end.
Proof.
  unfold detect.
  destruct (if String.eqb option "merge" then (tad2, tad1) else (tad1, tad2)) as [t1 t2].
  destruct (fold_left (accumulate t1 t2) (fst (get_chrom_list t1 t2)) None) as [t|];
    [|reflexivity].
  destruct (choose_region intensity_of_region t) as [final|e]; cbn [bind]; [|reflexivity].
  eexists; split; [reflexivity|].
  unfold save_frame; cbn [fst].
  rewrite !count_events_shift; reflexivity.
Qed.

(** X18. What the entry point returns and prints does not depend on the
    [binsize] argument: the bin size only reaches [demodify_tads_map], and
    [find_split] always runs with its default bin size. *)
Theorem main_ignores_binsize (pval : Type)
    (intensity_of_region : string * Q * Q -> list (Q * Q) -> res pval)
    (tad1 tad2 : list Tad.t) (binsize binsize' : Z) :
  main_split_merge_detection intensity_of_region (mkArguments tad1 tad2 binsize)
  = main_split_merge_detection intensity_of_region (mkArguments tad1 tad2 binsize').
Proof.
  unfold main_split_merge_detection, wrapper_print, main_split_merge_detection_body.
  cbn [tads_1 tads_2 binsize_arg].
  pose proof (detect_binsize pval intensity_of_region "split" tad1 tad2 binsize binsize') as H1.
  pose proof (detect_binsize pval intensity_of_region "merge" tad1 tad2 binsize binsize') as H2.
  destruct (detect intensity_of_region "split" tad1 tad2 binsize) as [s|e].
  - destruct H1 as (s' & -> & E1); cbn [bind].
    destruct (detect intensity_of_region "merge" tad1 tad2 binsize) as [m|e].
    + destruct H2 as (m' & -> & E2); cbn [bind]; rewrite E1, E2; reflexivity.
    + rewrite H2; reflexivity.
  - rewrite H1; reflexivity.
Qed.

(** ** Tolerances of the pairwise test *)

(** X19. The pairwise test of [find_split] is monotone in its two
    tolerances: a pair of a main TAD (with start at most end) and a small
    TAD that passes with a bin size and a flexibility factor also passes
    with any larger bin size and larger factor. *)
Theorem contained_monotone (binsize binsize' : Z) (flex flex' : Q) (a b : Tad.t) :
  (binsize <= binsize')%Z ->
  flex <= flex' ->
  (Tad.start a <= Tad.end_ a)%Z ->
  contained (merge_row (modify_tad binsize flex a) (add_size b)) = true ->
  contained (merge_row (modify_tad binsize' flex' a) (add_size b)) = true.
Proof.
  intros Hb Hf Ha; unfold contained; cbn.
  rewrite !andb_true_iff, !Qle_bool_iff.
  assert (Hb' : inject_Z binsize <= inject_Z binsize')
    by (rewrite <- Zle_Qle; exact Hb).
  assert (Ha' : 0 <= inject_Z (Tad.end_ a - Tad.start a))
    by (change 0 with (inject_Z 0); rewrite <- Zle_Qle; lia).
  unfold BINSIZE_COEF.
  intros [[H1 H2] H3]; repeat split; try lra.
  eapply Qle_trans; [exact H3|].
  rewrite (Qmult_comm _ flex), (Qmult_comm _ flex'); apply Qmult_le_compat_r; assumption.
Qed.

Lemma contained_monotone_witness :
  contained (merge_row (modify_tad 200000 (12 # 10) (Tad.mk "chr1" 0 300))
                       (add_size (Tad.mk "chr1" 0 140))) = true.
Proof.
  apply (contained_monotone 100000 200000 (11 # 10) (12 # 10)
           (Tad.mk "chr1" 0 300) (Tad.mk "chr1" 0 140)).
  - lia.
  - vm_compute; discriminate.
  - cbn; lia.
  - vm_compute; reflexivity.
Defined.

(** ** The decorators *)



Lemma wrapper_first_calls_used (A B : Type) (func : A -> res B) (calls : list A) :
  wrapper_first_calls func true calls = (true, []).
Proof.
  induction calls as [|args rest IH]; cbn; [reflexivity|].
  rewrite IH; reflexivity.
Qed.

(** X21. Over any non-empty sequence of calls of a function decorated
    with [visualise_wrapper], whether the calls return or raise, the
    message 'Visualising...' is written exactly once and the flag
    [wrapper_first.used] ends up set. *)
Theorem visualise_wrapper_writes_once (A B : Type) (func : A -> res B)
    (calls : list A) :
  calls <> [] ->
  wrapper_first_calls func false calls = (true, [("Visualising..." ++ CR)%string]).
Proof.
  destruct calls as [|args rest]; [congruence|]; intros _; cbn.
  rewrite wrapper_first_calls_used; reflexivity.
Qed.

Lemma visualise_wrapper_writes_once_witness :
  wrapper_first_calls (fun n : nat => if Nat.eqb n 0 then Raise IndexError else Ok n)
    false [0%nat; 1%nat; 2%nat]
  = (true, [("Visualising..." ++ CR)%string]).
Proof.
  apply (visualise_wrapper_writes_once nat nat
           (fun n => if Nat.eqb n 0 then Raise IndexError else Ok n)
           [0%nat; 1%nat; 2%nat]).
  discriminate.
Defined.

(** ** Lookup in consecutive bins *)

Lemma find_coords_from_chained (position : Q) (coords : list (Q * Q)) :
  forall i first,
    chained coords ->
    fst (hd first coords) <= position ->
    position <= snd (List.last coords first) ->
    coords <> [] ->
    exists k, find_coords_from i position coords = Some k
              /\ (i <= k < i + List.length coords)%nat.
Proof.
  induction coords as [|[f s] rest IH]; intros i first Hch Hlo Hhi Hne; [congruence|].
  cbn [find_coords_from]; cbn [hd fst] in Hlo.
  destruct (Qle_bool f position && Qle_bool position s) eqn:E.
  - exists i; split; [reflexivity|cbn; lia].
  - destruct rest as [|[f' s'] rest'].
    + exfalso; cbn in Hhi.
      apply Qle_bool_iff in Hlo, Hhi; rewrite Hlo, Hhi in E; discriminate.
    + cbn [chained] in Hch; destruct Hch as [Hadj Hch]; cbn [fst snd] in Hadj.
      destruct (IH (S i) first Hch) as (k & Hk & Hb); try discriminate.
      * cbn [hd fst]; rewrite <- Hadj.
        apply Qle_bool_iff in Hlo; rewrite Hlo in E; cbn in E.
        destruct (Qlt_le_dec s position) as [L|L]; [apply Qlt_le_weak; exact L|].
        apply Qle_bool_iff in L; congruence.
      * exact Hhi.
      * exists k; split; [exact Hk|cbn [List.length] in *; lia].
Qed.

(** X22. In a non-empty list of bins in which each bin begins where the
    previous one ends, [find_coords] finds a bin for every position from
    the start of the first bin to the end of the last one, and returns its
    index, which is less than the number of bins. *)
Theorem find_coords_in_chained_bins (position : Q) (first : Q * Q) (rest : list (Q * Q)) :
  chained (first :: rest) ->
  fst first <= position ->
  position <= snd (List.last rest first) ->
  exists k, find_coords position (first :: rest) = Ok (Some k)
            /\ (k < S (List.length rest))%nat.
Proof.
  intros Hch Hlo Hhi.
  destruct (find_coords_from_chained position (first :: rest) 0 first Hch) as (k & Hk & Hb);
    auto; try discriminate.
  - destruct rest; exact Hhi.
  - exists k; unfold find_coords; rewrite Hk; split; [reflexivity|cbn in Hb; lia].
Qed.

Lemma find_coords_in_chained_bins_witness :
  exists k, find_coords 150 [(0, 100); (100, 200); (200, 300)] = Ok (Some k)
            /\ (k < 3)%nat.
Proof.
  apply (find_coords_in_chained_bins 150 (0, 100) [(100, 200); (200, 300)]).
  - cbn; split; [reflexivity|split; [reflexivity|exact I]].
  - vm_compute; discriminate.
  - vm_compute; discriminate.
Defined.

(** ** The intensity of a group *)

Section IntensityFacts.

Variables pval cell : Type.
Variable iloc_mean : option nat -> option nat -> option nat -> option nat -> list cell.
Variable mannwhitneyu : list cell -> list cell -> res pval.
Variable coords : list (Q * Q).

Lemma find_coords_cases (position : Q) :
  find_coords position coords = Ok None
  \/ exists k, find_coords position coords = Ok (Some k).
Proof.
  unfold find_coords; destruct (find_coords_from 0 position coords) as [k|]; eauto.
Qed.

Lemma intensity_loop_step (x y : Q * Q) (rest : list (Q * Q))
    (c2 : option (option nat * option nat)) (square hill : list cell) :
  intensity_loop iloc_mean coords (x :: y :: rest) c2 square hill
  = (start_1_corrected <-- of_res (find_coords (fst x) coords) ;;
     end_1_corrected <-- of_res (find_coords (snd x) coords) ;;
     start_2_corrected <-- of_res (find_coords (fst y) coords) ;;
     end_2_corrected <-- of_res (find_coords (snd y) coords) ;;
     col_start <-- plus_one start_2_corrected ;;
     col_stop <-- plus_one end_2_corrected ;;
     stop <-- plus_one end_1_corrected ;;
     intensity_loop iloc_mean coords (y :: rest)
       (Some (start_2_corrected, end_2_corrected))
       (square ++ iloc_mean start_1_corrected end_1_corrected (Some col_start) (Some col_stop))
       (hill ++ iloc_mean start_1_corrected (Some stop) start_1_corrected (Some stop))).
Proof. reflexivity. Qed.

Lemma incremented_tail (x y : Q * Q) (rest : list (Q * Q)) (q : Q) :
  In q (incremented (y :: rest)) -> In q (incremented (x :: y :: rest)).
Proof.
  unfold incremented; cbn [map tl app In]; rewrite !in_app_iff; cbn [In]; tauto.
Qed.

Lemma incremented_head (x y : Q * Q) (rest : list (Q * Q)) (q : Q) :
  In q (incremented (x :: y :: rest)) ->
  q = snd x \/ q = fst y \/ q = snd y
  \/ (rest <> [] /\ In q (incremented (y :: rest))).
Proof.
  unfold incremented; cbn [map tl app In]; rewrite !in_app_iff; cbn [In].
  destruct rest as [|z rest]; cbn [map In app].
  - intros [H|[H|[[]|[H|[]]]]]; subst; auto.
  - intros [H|[H|[H|[H|H]]]].
    + left; symmetry; exact H.
    + right; right; left; symmetry; exact H.
    + right; right; right; split; [discriminate|right; left; exact H].
    + right; left; symmetry; exact H.
    + right; right; right; split; [discriminate|right; right; exact H].
Qed.

Lemma intensity_loop_found (smalls : list (Q * Q)) :
  forall corrected_2 square hill,
    smalls <> [] ->
    (forall q, In q (incremented smalls) -> exists k, find_coords q coords = Ok (Some k)) ->
    (tl smalls = [] -> exists s2 n, corrected_2 = Some (s2, Some n)) ->
    exists square' hill',
      intensity_loop iloc_mean coords smalls corrected_2 square hill
      = Returned (square', hill').
Proof.
  induction smalls as [|x rest IH]; intros c2 square hill Hne Hfound Hlast; [congruence|].
  destruct rest as [|y rest'].
  - destruct (Hlast eq_refl) as (s2 & n & ->); cbn; eauto.
  - rewrite intensity_loop_step.
    destruct (Hfound (snd x)) as (e1 & He1); [cbn; auto|].
    destruct (Hfound (fst y)) as (s2 & Hs2);
      [unfold incremented; apply in_or_app; right; cbn; auto|].
    destruct (Hfound (snd y)) as (e2 & He2); [cbn; auto|].
    assert (Hrec : forall c sq hl,
               (tl (y :: rest') = [] -> exists s n, c = Some (s, Some n)) ->
               exists square' hill',
                 intensity_loop iloc_mean coords (y :: rest') c sq hl
                 = Returned (square', hill')).
    { intros c sq hl Hc; apply IH; [discriminate| |exact Hc].
      intros q Hq; apply Hfound, incremented_tail; exact Hq. }
    destruct (find_coords_cases (fst x)) as [Hs1|(s1 & Hs1)];
      rewrite Hs1, He1, Hs2, He2; cbn [of_res obind plus_one];
      apply Hrec; eauto.
Qed.

Lemma intensity_loop_missing (smalls : list (Q * Q)) :
  forall corrected_2 square hill,
    (2 <= List.length smalls)%nat ->
    (exists q, In q (incremented smalls) /\ find_coords q coords = Ok None) ->
    intensity_loop iloc_mean coords smalls corrected_2 square hill
    = Raised (TypeError none_plus_int).
Proof.
  induction smalls as [|x rest IH]; intros c2 square hill Hlen (q & Hq & Hmiss);
    [cbn in Hlen; lia|].
  destruct rest as [|y rest']; [cbn in Hlen; lia|].
  rewrite intensity_loop_step.
  apply incremented_head in Hq.
  destruct (find_coords_cases (fst x)) as [Hs1|(s1 & Hs1)];
    destruct (find_coords_cases (snd x)) as [He1|(e1 & He1)];
    destruct (find_coords_cases (fst y)) as [Hs2|(s2 & Hs2)];
    destruct (find_coords_cases (snd y)) as [He2|(e2 & He2)];
    rewrite Hs1, He1, Hs2, He2; cbn [of_res obind plus_one]; try reflexivity.
  all: destruct Hq as [->|[->|[->|[Hne Hq]]]]; try congruence.
  all: apply IH; [destruct rest'; [congruence|cbn; lia]|exists q; auto].
Qed.

End IntensityFacts.

(** X23. [calculate_intensity] on a single small TAD raises
    UnboundLocalError for [start_2_corrected].  On two or more small TADs
    it raises TypeError (None + int) as soon as one of the positions whose
    bin index is incremented (the end of a small TAD, or the start of a
    small TAD other than the first) lies in no bin; when all of them lie in
    a bin, it reaches the Mann-Whitney test and its outcome is the outcome
    of the test. *)
Theorem calculate_intensity_outcomes (pval cell : Type)
    (iloc_mean : option nat -> option nat -> option nat -> option nat -> list cell)
    (mannwhitneyu : list cell -> list cell -> res pval)
    (coords small_tads_coords : list (Q * Q)) :
  (forall small_tad,
      small_tads_coords = [small_tad] ->
      calculate_intensity iloc_mean mannwhitneyu small_tads_coords coords
      = Raised (Exn (UnboundLocalError "start_2_corrected")))
  /\ ((2 <= List.length small_tads_coords)%nat ->
      (exists q, In q (incremented small_tads_coords) /\ find_coords q coords = Ok None) ->
      calculate_intensity iloc_mean mannwhitneyu small_tads_coords coords
      = Raised (TypeError none_plus_int))
  /\ ((2 <= List.length small_tads_coords)%nat ->
      (forall q, In q (incremented small_tads_coords) ->
         exists k, find_coords q coords = Ok (Some k)) ->
      exists square hill,
        calculate_intensity iloc_mean mannwhitneyu small_tads_coords coords
        = of_res (mannwhitneyu square hill)).
Proof.
  split; [|split].
  - intros x ->; reflexivity.
  - intros Hlen Hmiss; unfold calculate_intensity.
    rewrite intensity_loop_missing; auto.
  - intros Hlen Hfound; unfold calculate_intensity.
    destruct (intensity_loop_found cell iloc_mean coords small_tads_coords None [] []) as (sq & hill & ->); auto.
    + intros ->; cbn in Hlen; lia.
    + intros E; destruct small_tads_coords as [|x [|y r]]; cbn in Hlen, E;
        try lia; discriminate.
    + exists sq, hill; reflexivity.
Qed.

Lemma calculate_intensity_outcomes_witness :
  exists square hill,
    calculate_intensity (fun _ _ _ _ => [1]) example_mannwhitneyu
      [(0, 140); (150, 300)] [(0, 100); (100, 200); (200, 300)]
    = of_res (example_mannwhitneyu square hill).
Proof.
  apply (proj2 (proj2 (calculate_intensity_outcomes Q Q (fun _ _ _ _ => [1])
                         example_mannwhitneyu [(0, 100); (100, 200); (200, 300)]
                         [(0, 140); (150, 300)]))).
  - cbn; lia.
  - intros q H; cbn in H; destruct H as [<-|[<-|[<-|[]]]]; eexists; vm_compute; reflexivity.
Defined.
